(** * Oracul news aggregator: specification claims checked against the code

    A shallow embedding of the parts of the Python sources that the
    specification's testable properties talk about:

    - [crawler/scheduler.py]             (module [Scheduler])
    - [crawler/sources/api_source.py]    (module [ApiSource])
    - [processor/deduplication/duplicate_detector.py] (module [Dedup])
    - [storage/database/repository.py]   (module [Analytics])
    - [processor/pipeline/classifier.py] (module [Classifier])
    - [processor/utils/text_utils.py]    (module [TextUtils])
    - [processor/pipeline/sentiment_analyzer.py] (module [Sentiment])
    - [api/middlewares/rate_limit.py]    (module [RateLimit])
    - [crawler/sources/base.py]          (module [BaseSource])

    Conventions.  Python [int] is [Z]; Python [float] is modelled by the
    rational [Q] it denotes: comparisons are exact; the float arithmetic
    of the similarity scores, the sentence scores and the percentages is
    rounded to binary64 (see [fl]); the readings of the clock are combined
    as the rationals they are; [str] is [string], read as a sequence of
    code points below 256; a [dict] with string keys is a
    [gmap string _]; a raised exception is the left injection of a sum.
    The wall clock and the random generator are explicit inputs. *)

From Stdlib Require Import ZArith QArith Qround Qabs Qpower Lia Lqa String Ascii List Sorted.
From stdpp Require Import gmap strings list.

Set Warnings "-register-all".

(** ** Python values and exceptions *)

Inductive pyval : Type :=
  | PNone
  | PBool (b : bool)
  | PInt (z : Z)
  | PFloat (q : Q)
  | PStr (s : string)
  | PList (l : list pyval)
  | PDict (d : gmap string pyval).

Inductive pyexn : Type :=
  | AttributeError
  | KeyError
  | TypeError
  | ValueError
  | ZeroDivisionError.

(** Result of a computation that may raise. *)
Definition M (A : Type) : Type := (pyexn + A)%type.

Definition ret {A} (a : A) : M A := inr a.
Definition raise {A} (e : pyexn) : M A := inl e.
Definition bind {A B} (m : M A) (k : A -> M B) : M B :=
  match m with
  | inl e => inl e
  | inr a => k a
  end.

Notation "x <-! m ; k" := (bind m (fun x => k))
  (at level 100, m at next level, right associativity, only parsing).

(** [bool(v)]: Python truthiness. *)
Definition truthy (v : pyval) : bool :=
  match v with
  | PNone => false
  | PBool b => b
  | PInt z => negb (z =? 0)%Z
  | PFloat q => negb (Qeq_bool q 0)
  | PStr s => negb (String.eqb s "")
  | PList l => match l with [] => false | _ => true end
  | PDict d => negb (bool_decide (d = ∅))
  end.

(** [d.get(k)] and [d.get(k, dflt)]. *)
Definition dict_get (d : gmap string pyval) (k : string) : pyval :=
  match d !! k with Some v => v | None => PNone end.

Definition dict_get_default (d : gmap string pyval) (k : string) (dflt : pyval) : pyval :=
  match d !! k with Some v => v | None => dflt end.

(** [d[k]]. *)
Definition dict_item (d : gmap string pyval) (k : string) : M pyval :=
  match d !! k with Some v => ret v | None => raise KeyError end.

(** ** Rational helpers standing for float operations *)

(** The number a value denotes in arithmetic ([bool] is a subtype of [int]);
    [TypeError] for anything else. *)
Definition as_number (v : pyval) : M Q :=
  match v with
  | PInt z => ret (inject_Z z)
  | PBool b => ret (inject_Z (if b then 1 else 0))
  | PFloat q => ret q
  | _ => raise TypeError
  end.

Definition Qltb (x y : Q) : bool := negb (Qle_bool y x).

(** [int(x)] on a float: truncation toward zero. *)
Definition Qtrunc (x : Q) : Z :=
  if Qle_bool 0 x then Qfloor x else Qceiling x.

(** ** Text primitives ([str] methods and the character classes of [re]) *)

Definition code (c : ascii) : N := N_of_ascii c.

Definition in_range (lo hi n : N) : bool := ((lo <=? n) && (n <=? hi))%N.

(** [str.isspace] on one character; also the class [\s] of [re]. *)
Definition isspace (c : ascii) : bool :=
  let n := code c in
  in_range 9 13 n || in_range 28 32 n || (n =? 133)%N || (n =? 160)%N.

(** The class [\d] of [re]. *)
Definition re_digit (c : ascii) : bool := in_range 48 57 (code c).

(** The class [\w] of [re]: alphanumeric characters and the underscore. *)
Definition re_word (c : ascii) : bool :=
  let n := code c in
  in_range 48 57 n || in_range 65 90 n || (n =? 95)%N || in_range 97 122 n
  || (n =? 170)%N || in_range 178 179 n || (n =? 181)%N || in_range 185 186 n
  || in_range 188 190 n || in_range 192 214 n || in_range 216 246 n
  || in_range 248 255 n.

(** [str.isdigit] on one character (the superscripts 1, 2, 3 count). *)
Definition isdigit_char (c : ascii) : bool :=
  let n := code c in
  in_range 48 57 n || in_range 178 179 n || (n =? 185)%N.

(** [str.lower] on one character. *)
Definition lower_char (c : ascii) : ascii :=
  let n := code c in
  if in_range 65 90 n || (in_range 192 222 n && negb (n =? 215)%N)
  then ascii_of_N (n + 32)
  else c.

Definition chars (s : string) : list ascii := list_ascii_of_string s.
Definition text (l : list ascii) : string := string_of_list_ascii l.

Definition lower (s : string) : string := text (map lower_char (chars s)).

Fixpoint lstrip_chars (l : list ascii) : list ascii :=
  match l with
  | c :: l' => if isspace c then lstrip_chars l' else l
  | [] => []
  end.

(** [s.strip()]. *)
Definition strip (s : string) : string :=
  text (rev (lstrip_chars (rev (lstrip_chars (chars s))))).

(** [s.split()]: maximal runs of non-space characters. *)
Fixpoint split_ws_aux (cur : list ascii) (l : list ascii) : list string :=
  match l with
  | [] => match cur with [] => [] | _ => [text (rev cur)] end
  | c :: l' =>
      if isspace c
      then match cur with
           | [] => split_ws_aux [] l'
           | _ => text (rev cur) :: split_ws_aux [] l'
           end
      else split_ws_aux (c :: cur) l'
  end.

Definition split_ws (s : string) : list string := split_ws_aux [] (chars s).

(** [s.split(sep)] for a one-character separator. *)
Fixpoint split_on_aux (sep : ascii) (cur : list ascii) (l : list ascii) : list string :=
  match l with
  | [] => [text (rev cur)]
  | c :: l' =>
      if Ascii.eqb c sep
      then text (rev cur) :: split_on_aux sep [] l'
      else split_on_aux sep (c :: cur) l'
  end.

Definition split_on (sep : ascii) (s : string) : list string :=
  split_on_aux sep [] (chars s).

(** [sep.join(parts)]. *)
Fixpoint join (sep : string) (parts : list string) : string :=
  match parts with
  | [] => ""
  | [p] => p
  | p :: ps => (p ++ sep ++ join sep ps)%string
  end.

Fixpoint is_prefix (p l : list ascii) : bool :=
  match p, l with
  | [], _ => true
  | _ :: _, [] => false
  | a :: p', b :: l' => Ascii.eqb a b && is_prefix p' l'
  end.

Fixpoint is_infix (p l : list ascii) : bool :=
  is_prefix p l || match l with [] => false | _ :: l' => is_infix p l' end.

(** [sub in s]. *)
Definition contains (s sub : string) : bool := is_infix (chars sub) (chars s).

(** [s.count(sub)]-free length: [len(s)]. *)
Definition len (s : string) : Z := Z.of_nat (String.length s).

(** [re.sub(r'[^\w\s]', repl, s)] for [repl] of length 0 or 1. *)
Definition sub_nonword (repl : list ascii) (s : string) : string :=
  text (flat_map (fun c => if re_word c || isspace c then [c] else repl) (chars s)).

(** [re.sub(r'\d+', '', s)]. *)
Definition sub_digits (s : string) : string :=
  text (List.filter (fun c => negb (re_digit c)) (chars s)).

(** [re.sub(r'\s+', ' ', s)]: every maximal run of spaces becomes one blank. *)
Fixpoint collapse_ws (in_run : bool) (l : list ascii) : list ascii :=
  match l with
  | [] => []
  | c :: l' =>
      if isspace c
      then (if in_run then collapse_ws true l' else " "%char :: collapse_ws true l')
      else c :: collapse_ws false l'
  end.

Definition sub_spaces (s : string) : string := text (collapse_ws false (chars s)).

(** [re.sub(r'https?://\S+|www\.\S+', '', s)].  A match starts where one of
    the three prefixes is followed by a non-space character and runs to the
    end of that run of non-space characters. *)
Definition nonspace_follows (l : list ascii) : bool :=
  match l with c :: _ => negb (isspace c) | [] => false end.

Definition url_start (l : list ascii) : bool :=
  existsb (fun p => is_prefix (chars p) l && nonspace_follows (skipn (String.length p) l))
    ["https://"; "http://"; "www."]%string.

Fixpoint sub_urls_aux (skip : bool) (l : list ascii) : list ascii :=
  match l with
  | [] => []
  | c :: l' =>
      if skip && negb (isspace c) then sub_urls_aux true l'
      else if url_start l then sub_urls_aux true l'
      else c :: sub_urls_aux false l'
  end.

Definition sub_urls (s : string) : string := text (sub_urls_aux false (chars s)).

(** [re.sub(r'\S+@\S+\.\S+', '', s)].  A match never crosses a space, and
    when a run of non-space characters contains one it covers the whole
    run: that is when the run has an [@] after its first character and,
    at least one character later, a dot that is not its last character. *)
Fixpoint dot_then_more (l : list ascii) : bool :=
  match l with
  | [] => false
  | c :: l' => (Ascii.eqb c "." && negb (bool_decide (l' = []))) || dot_then_more l'
  end.

Fixpoint at_then_domain (l : list ascii) : bool :=
  match l with
  | [] => false
  | c :: l' =>
      (Ascii.eqb c "@" && match l' with _ :: l'' => dot_then_more l'' | [] => false end)
      || at_then_domain l'
  end.

Definition is_email (run : list ascii) : bool :=
  match run with _ :: l => at_then_domain l | [] => false end.

Fixpoint take_nonspace (l : list ascii) : list ascii :=
  match l with
  | c :: l' => if isspace c then [] else c :: take_nonspace l'
  | [] => []
  end.

Fixpoint sub_emails_aux (boundary skip : bool) (l : list ascii) : list ascii :=
  match l with
  | [] => []
  | c :: l' =>
      if isspace c then c :: sub_emails_aux true false l'
      else if skip then sub_emails_aux false true l'
      else if boundary && is_email (take_nonspace l) then sub_emails_aux false true l'
      else c :: sub_emails_aux false false l'
  end.

Definition sub_emails (s : string) : string := text (sub_emails_aux true false (chars s)).

(** ** Built-ins on sequences *)

(** [sorted(l, key=key, reverse=True)]: descending by key, elements with
    equal keys staying in their original order. *)
Fixpoint insert_desc {A} (key : A -> Q) (x : A) (sorted : list A) : list A :=
  match sorted with
  | [] => [x]
  | y :: ys => if Qltb (key x) (key y) then y :: insert_desc key x ys else x :: y :: ys
  end.

Definition sort_desc {A} (key : A -> Q) (l : list A) : list A :=
  fold_right (insert_desc key) [] l.

(** [l[:k]] for any integer [k]. *)
Definition slice_to {A} (k : Z) (l : list A) : list A :=
  if (0 <=? k)%Z then firstn (Z.to_nat k) l
  else firstn (Z.to_nat (Z.of_nat (length l) + k)) l.

(** Counting with a dictionary: [counts[w] += 1], a new key going last. *)
Fixpoint bump (w : string) (counts : list (string * Z)) : list (string * Z) :=
  match counts with
  | [] => [(w, 1%Z)]
  | (v, n) :: rest =>
      if String.eqb v w then (v, (n + 1)%Z) :: rest else (v, n) :: bump w rest
  end.

Definition count_words (ws : list string) : list (string * Z) :=
  fold_left (fun counts w => bump w counts) ws [].

(** [round(x)] to the nearest integer, ties to the even one. *)
Definition round_half_even (x : Q) : Z :=
  let f := Qfloor x in
  let d := (x - inject_Z f)%Q in
  if Qltb d (1 # 2) then f
  else if Qltb (1 # 2) d then (f + 1)%Z
  else if Z.even f then f else (f + 1)%Z.

(** [round(x, 2)]. *)
Definition round2 (x : Q) : Q := (inject_Z (round_half_even (x * 100)) / 100)%Q.

(** [l[lo:hi]] for any two integers: a negative index counts from the end. *)
Definition norm_index (n i : Z) : Z :=
  if (i <? 0)%Z then Z.max 0 (i + n) else Z.min i n.

Definition slice {A} (lo hi : Z) (l : list A) : list A :=
  let n := Z.of_nat (length l) in
  firstn (Z.to_nat (norm_index n hi - norm_index n lo)) (skipn (Z.to_nat (norm_index n lo)) l).

(** [range(n)]. *)
Definition range (n : Z) : list Z := map Z.of_nat (seq 0 (Z.to_nat n)).

(** ** Binary floating point

    A Python [float] is an IEEE 754 binary64 number.  It is modelled by the
    rational it denotes, and an arithmetic operation on floats by the exact
    operation followed by [fl], the rounding to the nearest binary64 value,
    ties to the even significand.  Infinities and NaN have no counterpart:
    [fl] is the rounding of results below [2^1024] in magnitude. *)

(** [2^e] for any integer [e]. *)
Definition pow2 (e : Z) : Q := (2 ^ e)%Q.

(** The binade of a positive rational: the [e] with [2^e <= x < 2^(e+1)]. *)
Definition binade (x : Q) : Z :=
  let e := (Z.log2 (Qnum x) - Z.log2 (Zpos (Qden x)))%Z in
  if Qle_bool (pow2 e) x then e else (e - 1)%Z.

(** The exponent of the unit in the last place of the floats around [x]:
    53 significant bits, and the spacing [2^-1074] of the subnormal range. *)
Definition quantum (x : Q) : Z := Z.max (binade x - 52) (-1074).

(** The nearest multiple of the unit in the last place, for [x] positive. *)
Definition fl_pos (x : Q) : Q :=
  (inject_Z (round_half_even (x / pow2 (quantum x))) * pow2 (quantum x))%Q.

(** The float nearest to [x]. *)
Definition fl (x : Q) : Q :=
  let x := Qred x in
  Qred (if Qeq_bool x 0 then 0
        else if Qltb 0 x then fl_pos x
        else - fl_pos (- x))%Q.

(** [a / b] on two integers: the quotient, correctly rounded. *)
Definition int_div (a b : Z) : Q := fl (inject_Z a / inject_Z b).

(** [x * y] and [x + y] on two floats. *)
Definition fmul (x y : Q) : Q := fl (x * y).
Definition fadd (x y : Q) : Q := fl (x + y).

(** [round(x, 2)] on a float: the exact value of [x] is rounded to two
    decimals, ties to even, and the decimal is read back as a float. *)
Definition float_round2 (x : Q) : Q := fl (round2 x).

(** ** crawler/settings/sources_config.py and crawler/scheduler.py *)

Module Scheduler.

Local Open Scope Q_scope.

(** The dataclass [SourceConfig]. *)
Record SourceConfig : Type := mkSourceConfig {
  name : string;
  url : string;
  type : string;                       (* rss, html, api *)
  category : option string;
  update_interval : Z;                 (* in minutes *)
  active : bool;
  id : option Z;
  rss_settings : gmap string pyval;
  html_settings : gmap string pyval;
  api_settings : gmap string pyval
}.

(** [__post_init__]: the validation run by the constructor. *)
Definition post_init (c : SourceConfig) : M SourceConfig :=
  if negb (bool_decide (type c ∈ ["rss"; "html"; "api"])) then raise ValueError
  else if String.eqb (name c) "" || String.eqb (url c) "" then raise ValueError
  else ret c.

Definition of_option {A} (f : A -> pyval) (o : option A) : pyval :=
  match o with Some a => f a | None => PNone end.

(** Reading the data attribute [attr] of a [SourceConfig] instance: the
    dataclass fields are the only data attributes the class defines;
    any other name raises [AttributeError]. *)
Definition getattr (c : SourceConfig) (attr : string) : M pyval :=
  if String.eqb attr "name" then ret (PStr (name c))
  else if String.eqb attr "url" then ret (PStr (url c))
  else if String.eqb attr "type" then ret (PStr (type c))
  else if String.eqb attr "category" then ret (of_option PStr (category c))
  else if String.eqb attr "update_interval" then ret (PInt (update_interval c))
  else if String.eqb attr "active" then ret (PBool (active c))
  else if String.eqb attr "id" then ret (of_option PInt (id c))
  else if String.eqb attr "rss_settings" then ret (PDict (rss_settings c))
  else if String.eqb attr "html_settings" then ret (PDict (html_settings c))
  else if String.eqb attr "api_settings" then ret (PDict (api_settings c))
  else raise AttributeError.

(** The scheduler's settings and the state [crawl_source] works on.
    [source_instances] maps a source id to the configuration held by
    the source object ([source.config]); times are seconds. *)
Record CrawlerScheduler : Type := mkScheduler {
  default_interval : Z;
  min_interval : Z;
  jitter : Q;
  source_instances : gmap string SourceConfig;
  last_crawl_time : gmap string Q;
  next_crawl_time : gmap string Q;
  on_error_callback : bool              (* is a callback registered? *)
}.

(** [CrawlerScheduler(config)] with an empty [config], before any source
    is loaded. *)
Definition default_scheduler : CrawlerScheduler :=
  mkScheduler 3600%Z 300%Z (1 # 10) ∅ ∅ ∅ false.

Definition set_last (self : CrawlerScheduler) (m : gmap string Q) : CrawlerScheduler :=
  mkScheduler (default_interval self) (min_interval self) (jitter self)
    (source_instances self) m (next_crawl_time self) (on_error_callback self).

Definition set_next (self : CrawlerScheduler) (m : gmap string Q) : CrawlerScheduler :=
  mkScheduler (default_interval self) (min_interval self) (jitter self)
    (source_instances self) (last_crawl_time self) m (on_error_callback self).

(** What one call of [crawl_source] draws from outside: the outcome of
    [await source.process()], the readings of [datetime.now()] at the
    three places that call it, and the draw of
    [random.uniform(-jitter, jitter)]. *)
Record Env : Type := mkEnv {
  process_result : M pyval;
  now_last : Q;
  now_next : Q;
  now_retry : Q;
  uniform : Q
}.

(** [a or b]. *)
Definition py_or (a b : pyval) : pyval := if truthy a then a else b.

Definition Qmaxb (a b : Q) : Q := if Qltb a b then b else a.
Definition Qminb (a b : Q) : Q := if Qltb b a then b else a.

(** The [try] block of [crawl_source]: the state reached and either the
    articles or the exception that left the block. *)
Definition crawl_try (self : CrawlerScheduler) (env : Env) (source_id : string)
    (config : SourceConfig) : CrawlerScheduler * M pyval :=
  match process_result env with
  | inl e => (self, inl e)
  | inr articles =>
      (* Update last crawl time *)
      let self1 := set_last self (<[source_id := now_last env]> (last_crawl_time self)) in
      (* Calculate next crawl time *)
      match getattr config "interval" with
      | inl e => (self1, inl e)
      | inr v =>
          match as_number (py_or v (PInt (default_interval self))) with
          | inl e => (self1, inl e)
          | inr interval0 =>
              let interval1 := Qmaxb interval0 (inject_Z (min_interval self)) in
              (* Add jitter to prevent thundering herd *)
              let interval2 :=
                if Qltb 0 (jitter self)
                then inject_Z (Qtrunc (interval1 * (1 + uniform env)))
                else interval1 in
              (set_next self1 (<[source_id := now_next env + interval2]> (next_crawl_time self1)),
               inr articles)
          end
      end
  end.

(** The [except Exception] handler of [crawl_source], entered in the
    state the [try] block was left in.  The error callback, when one is
    registered, runs first; an exception it raises is logged and dropped. *)
Definition crawl_except (self : CrawlerScheduler) (env : Env) (source_id : string)
    (config : SourceConfig) : CrawlerScheduler * M pyval :=
  (* Update next crawl time for retry *)
  match getattr config "interval" with
  | inl e => (self, inl e)
  | inr v =>
      match as_number (py_or v (PInt (default_interval self))) with
      | inl e => (self, inl e)
      | inr interval =>
          let retry_interval := Qminb interval 600 in  (* Max 10 minutes for retry *)
          (set_next self (<[source_id := now_retry env + retry_interval]> (next_crawl_time self)),
           inr (PList []))
      end
  end.

(** [crawl_source(source_id)]. *)
Definition crawl_source (self : CrawlerScheduler) (env : Env) (source_id : string)
  : CrawlerScheduler * M pyval :=
  match source_instances self !! source_id with
  | None => (self, raise ValueError)
  | Some config =>
      match crawl_try self env source_id config with
      | (self1, inr articles) => (self1, inr articles)
      | (self1, inl _) => crawl_except self1 env source_id config
      end
  end.

End Scheduler.

(** ** crawler/sources/base.py *)

Module BaseSource.

Abbreviation article := (gmap string pyval).

(** [self.stats]; the two times are [None] until the first run. *)
Record Stats : Type := mkStats {
  articles_found : Z;
  articles_processed : Z;
  errors : Z;
  start_time : option Q;
  end_time : option Q
}.

(** A source object: its configuration and its statistics.  The
    attributes [name] and [category] are copies of the configuration's. *)
Record BaseSource : Type := mkSource {
  config : Scheduler.SourceConfig;
  stats : Stats
}.

Definition set_stats (self : BaseSource) (st : Stats) : BaseSource :=
  mkSource (config self) st.

(** [self.stats] as the dictionary it is. *)
Definition stats_value (st : Stats) : pyval :=
  PDict {[ "articles_found" := PInt (articles_found st);
           "articles_processed" := PInt (articles_processed st);
           "errors" := PInt (errors st);
           "start_time" := Scheduler.of_option PFloat (start_time st);
           "end_time" := Scheduler.of_option PFloat (end_time st) ]}.

(** [category not in categories], then [categories.append(category)]:
    the value of "categories" afterwards. *)
Definition add_category (category : string) (categories : pyval) : M pyval :=
  match categories with
  | PList l =>
      if existsb (fun v => match v with PStr s => String.eqb s category | _ => false end) l
      then ret (PList l)
      else ret (PList (l ++ [PStr category]))
  | PStr s => if contains s category then ret (PStr s) else raise AttributeError
  | PDict d => if bool_decide (is_Some (d !! category)) then ret (PDict d)
               else raise AttributeError
  | _ => raise TypeError
  end.

(** [normalize_article(article)]: the normalized article, or [None]. *)
Definition normalize_article (self : BaseSource) (a : article) : M pyval :=
  (* Check required fields *)
  if negb (truthy (dict_get a "title")) || negb (truthy (dict_get a "url")) then ret PNone
  else
    (* Create normalized article *)
    let normalized : gmap string pyval :=
      {[ "title" := dict_get a "title";
         "url" := dict_get a "url";
         "content" := dict_get a "content";
         "summary" := dict_get a "summary";
         "published_at" := dict_get a "published_at";
         "author" := dict_get a "author";
         "image_url" := dict_get a "image_url";
         "source_id" := Scheduler.of_option PInt (Scheduler.id (config self));
         "source_name" := PStr (Scheduler.name (config self));
         "language" := dict_get a "language";
         "categories" := dict_get_default a "categories" (PList []) ]} in
    (* Add source category if not in categories *)
    match Scheduler.category (config self) with
    | Some category =>
        if negb (String.eqb category "") then
          categories <-! add_category category
                           (dict_get_default a "categories" (PList []));
          ret (PDict (<["categories" := categories]> normalized))
        else ret (PDict normalized)
    | None => ret (PDict normalized)
    end.

(** The loop of [process] over the fetched articles: an article that
    fails to normalize is counted and skipped. *)
Fixpoint normalize_all (self : BaseSource) (articles : list article)
    (normalized_articles : list pyval) (st : Stats) : list pyval * Stats :=
  match articles with
  | [] => (normalized_articles, st)
  | a :: rest =>
      match normalize_article self a with
      | inr normalized =>
          if truthy normalized then
            normalize_all self rest (normalized_articles ++ [normalized])
              (mkStats (articles_found st) (articles_processed st + 1) (errors st)
                 (start_time st) (end_time st))
          else normalize_all self rest normalized_articles st
      | inl _ =>
          normalize_all self rest normalized_articles
            (mkStats (articles_found st) (articles_processed st) (errors st + 1)
               (start_time st) (end_time st))
      end
  end.

Section Process.
(** [str(e)], the text of an exception. *)
Variable str : pyexn -> string.

(** [process()], given the outcome of [await self.fetch()] and the two
    readings of [datetime.utcnow()]: the source afterwards and the
    dictionary returned.  Every exception is caught inside. *)
Definition process (self : BaseSource) (utcnow_start utcnow_end : Q)
    (fetch : M (list article)) : BaseSource * pyval :=
  let st := stats self in
  let st := mkStats (articles_found st) (articles_processed st) (errors st)
              (Some utcnow_start) (end_time st) in
  match fetch with
  | inr articles =>
      (* Fetch articles *)
      let st := mkStats (Z.of_nat (length articles)) (articles_processed st) (errors st)
                  (start_time st) (end_time st) in
      (* Normalize articles *)
      let '(normalized_articles, st) := normalize_all self articles [] st in
      let st := mkStats (articles_found st) (articles_processed st) (errors st)
                  (start_time st) (Some utcnow_end) in
      (set_stats self st,
       PDict {[ "source" := PStr (Scheduler.name (config self));
                "source_id" := Scheduler.of_option PInt (Scheduler.id (config self));
                "articles" := PList normalized_articles;
                "stats" := stats_value st ]})
  | inl e =>
      let st := mkStats (articles_found st) (articles_processed st) (errors st + 1)
                  (start_time st) (Some utcnow_end) in
      (set_stats self st,
       PDict {[ "source" := PStr (Scheduler.name (config self));
                "source_id" := Scheduler.of_option PInt (Scheduler.id (config self));
                "articles" := PList [];
                "stats" := stats_value st;
                "error" := PStr (str e) ]})
  end.
End Process.

End BaseSource.

(** ** crawler/sources/api_source.py *)

Module ApiSource.

Local Open Scope Z_scope.

(** The pagination settings read by [__init__] from
    [api_settings["pagination"]]. *)
Record APISource : Type := mkAPISource {
  page_param : pyval;
  page_size_param : pyval;
  page_size : Z;
  max_pages : Z;
  total_path : pyval;
  next_page_path : pyval
}.

(** [pagination.get(...)] on an empty [pagination] dictionary. *)
Definition default_source : APISource :=
  mkAPISource PNone PNone 10 1 PNone PNone.

(** [key.isdigit()]. *)
Definition isdigit (s : string) : bool :=
  negb (String.eqb s "") && forallb isdigit_char (chars s).

(** [int(key)] for a key that passed [isdigit]: decimal digits convert,
    superscript digits raise [ValueError]. *)
Definition int_of_digits (s : string) : M Z :=
  if forallb re_digit (chars s)
  then ret (fold_left (fun acc c => 10 * acc + (Z.of_N (code c) - 48)) (chars s) 0)
  else raise ValueError.

(** One step of the path walk.  [Some v] is the value stepped to; [None]
    is the [else] branch of the loop body (the step is not possible).
    The keys of a JSON object are strings, so an integer key is never
    found in one. *)
Definition path_step (v : pyval) (key : string) : M (option pyval) :=
  if isdigit key then
    n <-! int_of_digits key;
    match v with
    | PList l => if n <? Z.of_nat (length l) then ret (l !! Z.to_nat n) else ret None
    | _ => ret None
    end
  else
    match v with
    | PDict d => ret (d !! key)
    | _ => ret None
    end.

Fixpoint walk (v : pyval) (keys : list string) : M (option pyval) :=
  match keys with
  | [] => ret (Some v)
  | key :: keys' =>
      r <-! path_step v key;
      match r with
      | Some v' => walk v' keys'
      | None => ret None
      end
  end.

(** [for key in path.split('.')] over a configured path; a truthy path
    that is not a string has no [split]. *)
Definition resolve (v : pyval) (path : pyval) : M (option pyval) :=
  match path with
  | PStr p => walk v (split_on "." p)
  | _ => raise AttributeError
  end.

(** [(total + self.page_size - 1) // self.page_size], as the number it
    denotes. *)
Definition total_pages (total : pyval) (page_size : Z) : M Q :=
  match total with
  | PInt t =>
      if page_size =? 0 then raise ZeroDivisionError
      else ret (inject_Z ((t + page_size - 1) / page_size))
  | PBool b =>
      if page_size =? 0 then raise ZeroDivisionError
      else ret (inject_Z (((if b then 1 else 0) + page_size - 1) / page_size))
  | PFloat t =>
      if page_size =? 0 then raise ZeroDivisionError
      else ret (inject_Z (Qfloor ((t + inject_Z page_size - 1) / inject_Z page_size)))
  | _ => raise TypeError
  end.

Definition is_dict (v : pyval) : bool :=
  match v with PDict _ => true | _ => false end.

(** [_check_has_more_pages(response_data, current_page, items_count)];
    [items_count] is the [len] of the parsed page. *)
Definition check_has_more_pages (self : APISource) (response_data : pyval)
    (current_page : Z) (items_count : nat) : bool :=
  (* If no pagination is configured, assume no more pages *)
  if negb (truthy (page_param self)) then false
  (* If no items were returned, assume no more pages *)
  else if Z.of_nat items_count =? 0 then false
  (* If items count is less than page size, assume no more pages *)
  else if Z.of_nat items_count <? page_size self then false
  (* Check total_path if provided *)
  else if truthy (total_path self) && is_dict response_data then
    match r <-! resolve response_data (total_path self);
          match r with
          | None => ret true
          | Some total =>
              (* Calculate total pages *)
              pages <-! total_pages total (page_size self);
              ret (Qltb (inject_Z current_page) pages)
          end
    with
    | inr b => b
    | inl _ => true
    end
  (* Check next_page_path if provided *)
  else if truthy (next_page_path self) && is_dict response_data then
    match r <-! resolve response_data (next_page_path self);
          match r with
          | None => ret false
          | Some next_page => ret (truthy next_page)
          end
    with
    | inr b => b
    | inl _ => false
    end
  (* Default to assuming more pages if we got a full page of results *)
  else page_size self <=? Z.of_nat items_count.

(** [_extract_field(item, field_path)]: the same walk, with [None] for an
    empty path, for a step that is not possible and for any exception. *)
Definition extract_field (item : pyval) (field_path : pyval) : pyval :=
  if negb (truthy field_path) then PNone
  else
    match resolve item field_path with
    | inr (Some value) => value
    | inr None => PNone
    | inl _ => PNone
    end.

Section Fetch.
Context {A : Type}.

(** [_fetch_page(page)]: one request; it catches its own exceptions and
    always returns the parsed articles and the [has_more] verdict. *)
Variable fetch_page : Z -> list A * bool.

(** The [while] loop of [fetch], entered with [has_more] true: the articles
    gathered and the pages requested so far.  The loop ends by itself after
    at most [max_pages] rounds; [fuel] only makes the recursion structural. *)
Fixpoint fetch_loop (fuel : nat) (self : APISource) (current_page : Z)
    (articles : list A) (pages : list Z) : list A * list Z :=
  if max_pages self <? current_page then (articles, pages)
  else
    match fuel with
    | O => (articles, pages)
    | S fuel' =>
        let '(page_articles, has_more) := fetch_page current_page in
        let articles := articles ++ page_articles in
        let pages := pages ++ [current_page] in
        if negb has_more || negb (truthy (page_param self)) then (articles, pages)
        else fetch_loop fuel' self (current_page + 1) articles pages
    end.

(** [fetch()]: the articles of all pages requested, and those pages. *)
Definition fetch (self : APISource) : list A * list Z :=
  fetch_loop (Z.to_nat (max_pages self)) self 1 [] [].

End Fetch.

End ApiSource.

(** ** processor/deduplication/duplicate_detector.py *)

Module Dedup.

Local Open Scope Q_scope.

(** An article in flight: a dictionary of loosely typed fields. *)
Abbreviation article := (gmap string pyval).

Record DuplicateDetector : Type := mkDetector {
  enabled : bool;
  similarity_threshold : Q;
  title_weight : Q;
  content_weight : Q;
  max_days_back : Z;
  min_content_length : Z;
  use_exact_match : bool;
  use_fuzzy_match : bool;
  use_minhash : bool;
  minhash_index : bool               (* is an LSH index installed? *)
}.

(** [DuplicateDetector(config)] with an empty [config]: the threshold
    and the weights are the floats [0.8], [0.6] and [0.4]. *)
Definition default_detector : DuplicateDetector :=
  mkDetector true (fl (8 # 10)) (fl (6 # 10)) (fl (4 # 10)) 7 100 true true false false.

(** [v.strip().lower()]; a value that is not a string has no [strip]. *)
Definition strip_lower (v : pyval) : M string :=
  match v with
  | PStr s => ret (lower (strip s))
  | _ => raise AttributeError
  end.

Definition nonempty (s : string) : bool := negb (String.eqb s "").

(** The loop of [_check_exact_match] over the candidates. *)
Fixpoint exact_match_loop (title url : string) (candidates : list article)
  : M (bool * pyval) :=
  match candidates with
  | [] => ret (false, PNone)
  | candidate :: rest =>
      (* Check title *)
      title_hit <-!
        (if nonempty title && truthy (dict_get candidate "title") then
           v <-! dict_item candidate "title";
           candidate_title <-! strip_lower v;
           ret (String.eqb title candidate_title)
         else ret false);
      if title_hit then
        cid <-! dict_item candidate "id"; ret (true, cid)
      else
        (* Check URL *)
        url_hit <-!
          (if nonempty url && truthy (dict_get candidate "url") then
             v <-! dict_item candidate "url";
             candidate_url <-! strip_lower v;
             ret (String.eqb url candidate_url)
           else ret false);
        if url_hit then
          cid <-! dict_item candidate "id"; ret (true, cid)
        else exact_match_loop title url rest
  end.

(** [_check_exact_match(article, candidates)]. *)
Definition check_exact_match (a : article) (candidates : list article)
  : M (bool * pyval) :=
  (* Get article title and URL *)
  title <-! strip_lower (dict_get_default a "title" (PStr ""));
  url <-! strip_lower (dict_get_default a "url" (PStr ""));
  (* Skip if no title or URL *)
  if negb (nonempty title) && negb (nonempty url) then ret (false, PNone)
  else exact_match_loop title url candidates.

(** [_clean_text(text)]. *)
Definition clean_text (s : string) : string :=
  let s := lower s in                         (* Convert to lowercase *)
  let s := sub_urls s in                      (* Remove URLs *)
  let s := sub_emails s in                    (* Remove email addresses *)
  let s := sub_nonword [" "%char] s in        (* Remove special characters *)
  let s := sub_digits s in                    (* Remove numbers *)
  strip (sub_spaces s).                       (* Normalize whitespace *)

(** [set(text.split())]. *)
Definition word_set (s : string) : gset string := list_to_set (split_ws s).

(** [_calculate_text_similarity(text1, text2)] on two strings. *)
Definition calculate_text_similarity (text1 text2 : string) : Q :=
  (* Clean texts *)
  let text1 := clean_text text1 in
  let text2 := clean_text text2 in
  (* Skip if either text is empty *)
  if negb (nonempty text1) || negb (nonempty text2) then 0
  else
    (* Get sets of words *)
    let words1 := word_set text1 in
    let words2 := word_set text2 in
    (* Skip if either set is empty *)
    if bool_decide (words1 = ∅) || bool_decide (words2 = ∅) then 0
    else
      (* Calculate Jaccard similarity *)
      let intersection := Z.of_nat (size (words1 ∩ words2)) in
      let union := Z.of_nat (size (words1 ∪ words2)) in
      if (union =? 0)%Z then 0
      else int_div intersection union.

(** The same on loosely typed values: [text.lower()] needs a string. *)
Definition text_similarity (v1 v2 : pyval) : M Q :=
  match v1, v2 with
  | PStr s1, PStr s2 => ret (calculate_text_similarity s1 s2)
  | _, _ => raise AttributeError
  end.

(** [_calculate_similarity(title1, content1, title2, content2)]. *)
Definition calculate_similarity (self : DuplicateDetector)
    (title1 content1 title2 content2 : pyval) : M Q :=
  (* Calculate title similarity *)
  title_similarity <-!
    (if truthy title1 && truthy title2 then text_similarity title1 title2 else ret 0);
  (* Calculate content similarity *)
  content_similarity <-!
    (if truthy content1 && truthy content2 then text_similarity content1 content2
     else ret 0);
  (* Calculate weighted similarity *)
  if truthy title1 && truthy title2 && truthy content1 && truthy content2 then
    ret (fadd (fmul title_similarity (title_weight self))
              (fmul content_similarity (content_weight self)))
  else if truthy title1 && truthy title2 then ret title_similarity
  else if truthy content1 && truthy content2 then ret content_similarity
  else ret 0.

(** The loop of [_check_fuzzy_match], carrying [best_similarity] and
    [best_candidate_id]. *)
Fixpoint fuzzy_match_loop (self : DuplicateDetector) (title content : pyval)
    (best_similarity : Q) (best_candidate_id : pyval) (candidates : list article)
  : M (Q * pyval) :=
  match candidates with
  | [] => ret (best_similarity, best_candidate_id)
  | candidate :: rest =>
      (* Get candidate title and content *)
      let candidate_title := dict_get_default candidate "title" (PStr "") in
      let candidate_content := dict_get_default candidate "content" (PStr "") in
      (* Skip if no title and no content *)
      if negb (truthy candidate_title) && negb (truthy candidate_content) then
        fuzzy_match_loop self title content best_similarity best_candidate_id rest
      else
        (* Calculate similarity *)
        similarity <-!
          calculate_similarity self title content candidate_title candidate_content;
        (* Check if duplicate *)
        if Qltb (similarity_threshold self) similarity && Qltb best_similarity similarity
        then
          cid <-! dict_item candidate "id";
          fuzzy_match_loop self title content similarity cid rest
        else
          fuzzy_match_loop self title content best_similarity best_candidate_id rest
  end.

(** [_check_fuzzy_match(article, candidates)]. *)
Definition check_fuzzy_match (self : DuplicateDetector) (a : article)
    (candidates : list article) : M (bool * pyval) :=
  (* Get article title and content *)
  let title := dict_get_default a "title" (PStr "") in
  let content := dict_get_default a "content" (PStr "") in
  (* Skip if no title and no content *)
  if negb (truthy title) && negb (truthy content) then ret (false, PNone)
  else
    best <-! fuzzy_match_loop self title content 0 PNone candidates;
    if truthy (snd best) then ret (true, snd best) else ret (false, PNone).

Section FindDuplicate.
(** [_check_minhash] is the work of the datasketch library; it catches
    its own exceptions and always returns a verdict. *)
Variable check_minhash : article -> list article -> bool * pyval.

End FindDuplicate.

(** [_get_shingles(text, k)]. *)
Definition get_shingles (s : string) (k : Z) : gset string :=
  let words := split_ws s in
  if (Z.of_nat (length words) <? k)%Z then {[ join " " words ]}
  else
    list_to_set
      (map (fun i => join " " (slice i (i + k) words))
           (range (Z.of_nat (length words) - k + 1))).

End Dedup.

(** ** storage/database/models.py and storage/database/repository.py *)

Module Analytics.

(** The rows of the three tables the query reads. *)
Record ArticleRow : Type := mkArticle { article_id : Z; article_title : string }.
Record CategoryRow : Type := mkCategory { category_id : Z; category_name : string }.
Record Link : Type := mkLink { link_article_id : Z; link_category_id : Z }.

Record Database : Type := mkDatabase {
  articles : list ArticleRow;
  categories : list CategoryRow;
  article_category : list Link        (* the association table *)
}.

(** [session.query(func.count(Article.id)).scalar()]. *)
Definition total_count (db : Database) : Z := Z.of_nat (length (articles db)).

Record Entry : Type := mkEntry {
  category : string;
  count : Z;
  percentage : Q
}.

(** The rows of [Category JOIN article_category JOIN Article]; each row
    is represented by the category name it carries. *)
Definition joined (db : Database) : list string :=
  flat_map (fun c =>
    flat_map (fun l =>
      if (link_category_id l =? category_id c)%Z then
        flat_map (fun a =>
          if (article_id a =? link_article_id l)%Z then [category_name c] else [])
          (articles db)
      else [])
      (article_category db))
    (categories db).

Section Query.
(** The order in which the database engine forms the groups.  [ORDER BY
    count DESC] fixes the order of the result only between groups of
    different counts; the order of groups with equal counts is the
    engine's. *)
Variable group_order : list (string * Z) -> list (string * Z).

(** [GROUP BY Category.name] with [count(Article.id)], then
    [ORDER BY count DESC]. *)
Definition grouped (db : Database) : list (string * Z) :=
  sort_desc (fun r => inject_Z (snd r)) (group_order (count_words (joined db))).

(** [get_category_distribution()]. *)
Definition get_category_distribution (db : Database) : list Entry :=
  let total_count := total_count db in
  if (total_count =? 0)%Z then []
  else
    map (fun r =>
           mkEntry (fst r) (snd r)
             (float_round2 (fmul (int_div (snd r) total_count) 100)))
        (grouped db).
End Query.

(** Sum of the [count] fields of a result. *)
Definition sum_counts (entries : list Entry) : Z :=
  fold_right (fun e acc => (count e + acc)%Z) 0%Z entries.

End Analytics.

(** ** processor/pipeline/classifier.py *)

Module Classifier.

Local Open Scope Q_scope.

Abbreviation article := (gmap string pyval).

Record Classifier : Type := mkClassifier {
  enabled : bool;
  min_content_length : Z;
  default_category : string;
  min_confidence : Q;
  use_tfidf : bool;
  use_neural : bool;
  override_existing : bool           (* config.get("override_existing", False) *)
}.

(** [Classifier(config)] with an empty [config]. *)
Definition default_classifier : Classifier :=
  mkClassifier true 100 "general" (5 # 10) true false false.

(** [len(v)]. *)
Definition py_len (v : pyval) : M Z :=
  match v with
  | PStr s => ret (len s)
  | PList l => ret (Z.of_nat (length l))
  | PDict d => ret (Z.of_nat (size d))
  | _ => raise TypeError
  end.

Definition categories_value (cats : list string) : pyval := PList (map PStr cats).

(** The three strategies, each a verdict (categories, confidence); the
    models behind the last two may be missing. *)
Record Strategies : Type := mkStrategies {
  prepare_text : article -> M string;
  classify_with_keywords : string -> article -> M (list string * Q);
  classify_with_tfidf : option (string -> list string * Q);
  classify_with_neural : option (string -> list string * Q)
}.

Section Classify.
Variable strategies : Strategies.

Definition nonempty_result (r : list string * Q) : list (list string * Q) :=
  match fst r with [] => [] | _ => [r] end.

(** [_classify_article(article)]. *)
Definition classify_article (self : Classifier) (a : article) : M (list string * Q) :=
  (* Prepare text for classification *)
  text <-! prepare_text strategies a;
  (* Classify with keywords *)
  keyword <-! classify_with_keywords strategies text a;
  let results := nonempty_result keyword in
  (* Classify with TF-IDF *)
  let results :=
    match (if use_tfidf self then classify_with_tfidf strategies else None) with
    | Some tfidf => results ++ nonempty_result (tfidf text)
    | None => results
    end in
  (* Classify with neural model *)
  let results :=
    match (if use_neural self then classify_with_neural strategies else None) with
    | Some neural => results ++ nonempty_result (neural text)
    | None => results
    end in
  (* Sort results by confidence *)
  match sort_desc snd results with
  | [] =>
      (* If no results, return default category *)
      ret ([default_category self], 0)
  | (top_categories, top_confidence) :: _ =>
      (* If confidence is too low, use default category *)
      if Qltb top_confidence (min_confidence self)
      then ret ([default_category self], top_confidence)
      else ret (top_categories, top_confidence)
  end.

Definition set_default_category (self : Classifier) (a : article) : article :=
  <["categories" := categories_value [default_category self]]> a.

(** The body of the [try] block of [process]: the article as it stands
    when the block is left, and whether it was left by an exception. *)
Definition process_try (self : Classifier) (a : article) : article * M unit :=
  (* Skip if disabled *)
  if negb (enabled self) then (a, ret tt)
  (* Skip if already classified *)
  else if truthy (dict_get a "categories") && negb (override_existing self)
  then (a, ret tt)
  (* Skip if no content *)
  else if negb (truthy (dict_get a "content")) && negb (truthy (dict_get a "title"))
  then (set_default_category self a, ret tt)
  else
    match
      (if truthy (dict_get a "content")
       then n <-! py_len (dict_get a "content"); ret (n <? min_content_length self)%Z
       else ret false)
    with
    | inl e => (a, inl e)
    | inr too_short =>
        (* Skip if content is too short *)
        if too_short && negb (truthy (dict_get a "title"))
        then (set_default_category self a, ret tt)
        else
          (* Classify article *)
          match classify_article self a with
          | inl e => (a, inl e)
          | inr (categories, confidence) =>
              (* Update article *)
              match categories with
              | [] => (set_default_category self a, ret tt)
              | _ =>
                  let a1 := <["categories" := categories_value categories]> a in
                  (* Add classification metadata *)
                  let a2 := match a1 !! "metadata" with
                            | Some _ => a1
                            | None => <["metadata" := PDict ∅]> a1
                            end in
                  match a2 !! "metadata" with
                  | Some (PDict metadata) =>
                      (<["metadata" :=
                           PDict (<["classification_confidence" := PFloat confidence]>
                                    metadata)]> a2,
                       ret tt)
                  | _ => (a2, raise TypeError)
                  end
              end
          end
    end.

(** [process(article)]: whatever goes wrong inside, the article comes
    back, then with the default category. *)
Definition process (self : Classifier) (a : article) : article :=
  match process_try self a with
  | (a', inr _) => a'
  | (a', inl _) => set_default_category self a'
  end.
End Classify.

(** [article["metadata"]["classification_confidence"]], when recorded. *)
Definition classification_confidence (a : article) : option pyval :=
  match a !! "metadata" with
  | Some (PDict metadata) => metadata !! "classification_confidence"
  | _ => None
  end.

End Classifier.

(** ** processor/utils/text_utils.py *)

Module TextUtils.

Local Open Scope Q_scope.

Definition is_sentence_end (c : ascii) : bool :=
  Ascii.eqb c "." || Ascii.eqb c "!" || Ascii.eqb c "?".

(** [re.split(r'(?<=[.!?])\s+', text)]: the text is cut at every maximal
    run of spaces that directly follows a full stop, an exclamation mark
    or a question mark; the run itself is dropped. *)
Fixpoint split_sentences_aux (after_end in_gap : bool) (cur : list ascii)
    (l : list ascii) : list string :=
  match l with
  | [] => [text (rev cur)]
  | c :: l' =>
      if isspace c then
        if in_gap then split_sentences_aux false true cur l'
        else if after_end then text (rev cur) :: split_sentences_aux false true [] l'
        else split_sentences_aux false false (c :: cur) l'
      else split_sentences_aux (is_sentence_end c) false (c :: cur) l'
  end.

Definition split_sentences (s : string) : list string :=
  split_sentences_aux false false [] (chars s).

Definition nonempty (s : string) : bool := negb (String.eqb s "").

(** [extract_sentences(text)]. *)
Definition extract_sentences (s : string) : list string :=
  if negb (nonempty s) then []
  else
    (* Split text into sentences *)
    let sentences := split_sentences s in
    (* Remove empty sentences *)
    map strip (List.filter (fun x => nonempty (strip x)) sentences).

(** [remove_special_chars(text)] with [keep_punctuation=False]. *)
Definition remove_special_chars (s : string) : string :=
  if negb (nonempty s) then "" else sub_nonword [] s.

(** [extract_keywords(text, max_keywords, min_word_length)]. *)
Definition extract_keywords (s : string) (max_keywords min_word_length : Z)
  : list string :=
  if negb (nonempty s) then []
  else
    (* Convert to lowercase *)
    let s := lower s in
    (* Remove special characters *)
    let s := remove_special_chars s in
    (* Split into words *)
    let words := split_ws s in
    (* Filter words by length *)
    let words := List.filter (fun w => (min_word_length <=? len w)%Z) words in
    (* Count word frequencies *)
    let word_counts := count_words words in
    (* Sort words by frequency *)
    let sorted_words := sort_desc (fun wc => inject_Z (snd wc)) word_counts in
    (* Get top keywords *)
    map fst (slice_to max_keywords sorted_words).

(** The score [generate_summary] gives a sentence: the number of keywords
    that occur in it, divided by its number of words. *)
Definition sentence_score (keywords : list string) (sentence : string) : Q :=
  let score :=
    Z.of_nat (length (List.filter (fun k => contains (lower sentence) (lower k)) keywords)) in
  let n := Z.of_nat (length (split_ws sentence)) in
  if (0 <? n)%Z then int_div score n else inject_Z score.

Definition mem (s : string) (l : list string) : bool :=
  existsb (String.eqb s) l.

(** The sentences [generate_summary] keeps when the text has more than
    [max_sentences] of them. *)
Definition top_sentences (s : string) (sentences : list string) (max_sentences : Z)
  : list string :=
  (* Extract keywords *)
  let keywords := extract_keywords s 20 3 in
  (* Score sentences based on keyword presence *)
  let sentence_scores := map (fun x => (x, sentence_score keywords x)) sentences in
  (* Sort sentences by score *)
  let sorted_sentences := sort_desc snd sentence_scores in
  (* Get top sentences *)
  map fst (slice_to max_sentences sorted_sentences).

(** [generate_summary(text, max_sentences)]. *)
Definition generate_summary (s : string) (max_sentences : Z) : string :=
  if negb (nonempty s) then ""
  else
    (* Extract sentences *)
    let sentences := extract_sentences s in
    match sentences with
    | [] => ""
    | _ =>
        (* If fewer sentences than max_sentences, return all *)
        if (Z.of_nat (length sentences) <=? max_sentences)%Z then join " " sentences
        else
          let top := top_sentences s sentences max_sentences in
          (* Sort sentences by original order *)
          let original_order := List.filter (fun x => mem x top) sentences in
          (* Join sentences *)
          join " " original_order
    end.

(** [truncate_text(text, max_length, add_ellipsis)]. *)
Definition truncate_text (s : string) (max_length : Z) (add_ellipsis : bool) : string :=
  if negb (nonempty s) then ""
  else if (len s <=? max_length)%Z then s
  else
    (* Truncate text *)
    let truncated := text (slice_to max_length (chars s)) in
    (* Add ellipsis *)
    if add_ellipsis then (truncated ++ "...")%string else truncated.

(** [get_ngrams(text, n)]. *)
Definition get_ngrams (s : string) (n : Z) : list string :=
  if negb (nonempty s) then []
  else
    (* Split text into words *)
    let words := split_ws s in
    (* Get n-grams *)
    map (fun i => join " " (slice i (i + n) words))
        (range (Z.of_nat (length words) - n + 1)).

(** [get_shingles(text, k)]. *)
Definition get_shingles (s : string) (k : Z) : gset string :=
  if negb (nonempty s) then ∅
  else
    (* Split text into words *)
    let words := split_ws s in
    (* Get shingles *)
    fold_left (fun shingles i => shingles ∪ {[ join " " (slice i (i + k) words) ]})
      (range (Z.of_nat (length words) - k + 1)) ∅.

(** [calculate_text_similarity(text1, text2)]. *)
Definition calculate_text_similarity (text1 text2 : string) : Q :=
  if negb (nonempty text1) || negb (nonempty text2) then 0
  else
    (* Get sets of words *)
    let words1 : gset string := list_to_set (split_ws text1) in
    let words2 : gset string := list_to_set (split_ws text2) in
    (* Calculate Jaccard similarity *)
    let intersection := Z.of_nat (size (words1 ∩ words2)) in
    let union := Z.of_nat (size (words1 ∪ words2)) in
    if (union =? 0)%Z then 0 else int_div intersection union.

End TextUtils.

(** ** processor/pipeline/sentiment_analyzer.py *)

Module Sentiment.

Local Open Scope Q_scope.

Section Vader.
(** [self.vader_analyzer.polarity_scores(text)]: the library call, which
    returns a dictionary of scores or raises. *)
Variable polarity_scores : string -> M (gmap string Q).

(** [scores["compound"]]. *)
Definition compound_of (scores : gmap string Q) : M Q :=
  match scores !! "compound" with Some c => ret c | None => raise KeyError end.

(** [_analyze_with_vader(text)]. *)
Definition analyze_with_vader (text : string) : string * Q :=
  match
    (* Get sentiment scores *)
    scores <-! polarity_scores text;
    (* Determine sentiment *)
    compound <-! compound_of scores;
    let sentiment :=
      if Qle_bool (5 # 100) compound then "positive"%string
      else if Qle_bool compound (- (5 # 100)) then "negative"%string
      else "neutral"%string in
    (* Calculate confidence *)
    let confidence := Qabs compound in
    ret (sentiment, confidence)
  with
  | inr r => r
  | inl _ => ("neutral"%string, 0)
  end.
End Vader.

End Sentiment.

(** ** api/middlewares/rate_limit.py *)

Module RateLimit.

(** [RateLimiter]: the two settings and the per-IP timestamp lists. *)
Record RateLimiter : Type := mkRateLimiter {
  rate_limit : Z;
  time_window : Z;
  requests : gmap string (list Q)
}.

(** [RateLimiter(rate_limit, time_window)]. *)
Definition init (rate_limit time_window : Z) : RateLimiter :=
  mkRateLimiter rate_limit time_window ∅.

Definition set_requests (self : RateLimiter) (r : gmap string (list Q)) : RateLimiter :=
  mkRateLimiter (rate_limit self) (time_window self) r.

(** [current_time - ts < self.time_window]. *)
Definition within_window (self : RateLimiter) (current_time ts : Q) : bool :=
  Qltb (current_time - ts) (inject_Z (time_window self)).

(** [min(l)] on a list of floats; [ValueError] on the empty list. *)
Definition py_min (l : list Q) : M Q :=
  match l with
  | [] => raise ValueError
  | t :: ts => ret (fold_left (fun m x => if Qltb x m then x else m) ts t)
  end.

(** [is_rate_limited(ip)], with [time.time()] given as [current_time].
    Returns the updated limiter and the result (or the exception). *)
Definition is_rate_limited (self : RateLimiter) (ip : string) (current_time : Q)
  : RateLimiter * M (bool * option Z) :=
  (* Initialize if this is the first request from this IP *)
  let stored := match requests self !! ip with Some l => l | None => [] end in
  (* Remove timestamps older than the time window *)
  let kept := List.filter (within_window self current_time) stored in
  let self1 := set_requests self (<[ip := kept]> (requests self)) in
  (* Check if rate limit is exceeded *)
  if (rate_limit self <=? Z.of_nat (length kept))%Z then
    (self1,
     oldest_timestamp <-! py_min kept;
     let retry_after :=
       Qtrunc (inject_Z (time_window self) - (current_time - oldest_timestamp)) in
     ret (true, Some (Z.max 1 retry_after)))
  else
    (* Add the current request timestamp *)
    (set_requests self (<[ip := kept ++ [current_time]]> (requests self)),
     ret (false, None)).

(** One pass of the body of [_cleanup_old_requests] at time [current_time]. *)
Definition cleanup_old_requests (self : RateLimiter) (current_time : Q) : RateLimiter :=
  set_requests self
    (map_filter (fun kv => snd kv <> []) _
       (List.filter (within_window self current_time) <$> requests self)).

(** A run of consecutive calls for one client, oldest first. *)
Fixpoint calls (self : RateLimiter) (ip : string) (times : list Q)
  : RateLimiter * list (M (bool * option Z)) :=
  match times with
  | [] => (self, [])
  | t :: ts =>
      let '(self1, r) := is_rate_limited self ip t in
      let '(self2, rs) := calls self1 ip ts in
      (self2, r :: rs)
  end.

(** [RateLimitMiddleware]. *)
Record RateLimitMiddleware : Type := mkMiddleware {
  rate_limiter : RateLimiter;
  exclude_paths : list string
}.

Definition default_exclude_paths : list string :=
  ["/docs"; "/redoc"; "/openapi.json"].

Record Request : Type := mkRequest {
  url_path : string;
  client_host : option string
}.

(** What [__call__] does with a request: hand it to [call_next], or
    raise [HTTPException(429)] carrying the [Retry-After] header. *)
Inductive Outcome : Type :=
  | CallNext
  | TooManyRequests (retry_after : option Z)
  | Raised (e : pyexn).

Definition call (self : RateLimitMiddleware) (request : Request) (current_time : Q)
  : RateLimitMiddleware * Outcome :=
  (* Skip rate limiting for excluded paths *)
  if bool_decide (url_path request ∈ exclude_paths self) then (self, CallNext)
  else
    let client_ip := match client_host request with Some h => h | None => "unknown" end in
    let '(limiter, r) := is_rate_limited (rate_limiter self) client_ip current_time in
    let self1 := mkMiddleware limiter (exclude_paths self) in
    match r with
    | inl e => (self1, Raised e)
    | inr (is_limited, retry_after) =>
        if is_limited then (self1, TooManyRequests retry_after) else (self1, CallNext)
    end.

(** Any sequence of requests, each a client and the time of its call,
    oldest first; only the limiter is kept. *)
Fixpoint serve (self : RateLimiter) (events : list (string * Q)) : RateLimiter :=
  match events with
  | [] => self
  | (ip, t) :: rest => serve (fst (is_rate_limited self ip t)) rest
  end.

End RateLimit.

(** ** Vocabulary of the statements and example data *)

(** The timestamps on record for a client ([[]] when it has no entry). *)
Definition stored (self : RateLimit.RateLimiter) (ip : string) : list Q :=
  match RateLimit.requests self !! ip with Some l => l | None => [] end.

(** All of [l] fits in one window of [w] seconds. *)
Definition all_within (w : Q) (l : list Q) : Prop :=
  ∀ a b : Q, a ∈ l → b ∈ l → (b - a < w)%Q.

(** A feed polled every 60 minutes, due at second 1000 and crawled at second
    1005 with a successful fetch. *)
Definition feed : Scheduler.SourceConfig :=
  Scheduler.mkSourceConfig "Example Feed" "https://example.org/rss" "rss" None 60 true
    (Some 1%Z) ∅ ∅ ∅.

Definition scheduler_with_feed : Scheduler.CrawlerScheduler :=
  Scheduler.mkScheduler 3600 300 (1 # 10) {[ "1" := feed ]} {[ "1" := 0%Q ]}
    {[ "1" := 1000%Q ]} false.

Definition fetch_ok : Scheduler.Env :=
  Scheduler.mkEnv (inr (PDict ∅)) 1005 1005 1005 0.








(** A paginated API source with ten items per page, and a response that
    announces ten items in all. *)
Definition paged_source : ApiSource.APISource :=
  ApiSource.mkAPISource (PStr "page") (PStr "pageSize") 10 5 (PStr "meta.total") PNone.

Definition one_page_response : pyval :=
  PDict {[ "meta" := PDict {[ "total" := PInt 10 ]} ]}.

(** [a.get(k, "")]: a text field of an article. *)
Definition field (a : gmap string pyval) (k : string) : pyval :=
  dict_get_default a k (PStr "").





(** The same headline in another case and with other spacing around it. *)
Definition headline_article : gmap string pyval :=
  {[ "id" := PInt 9; "title" := PStr "Breaking News ";
     "url" := PStr "https://a.example/breaking" ]}.

Definition headline_candidate : gmap string pyval :=
  {[ "id" := PInt 7; "title" := PStr " breaking NEWS";
     "url" := PStr "https://b.example/story" ]}.


Definition budget_candidate : gmap string pyval :=
  {[ "id" := PInt 3; "title" := PStr "budget vote";
     "content" := PStr "parliament delays decision" ]}.




(** Sum of the counts of grouped rows. *)
Definition total_of (rows : list (string * Z)) : Z :=
  fold_right (fun r acc => (snd r + acc)%Z) 0%Z rows.

(** One article filed under two categories. *)
Definition two_category_db : Analytics.Database :=
  Analytics.mkDatabase
    [Analytics.mkArticle 1 "Chip makers and the new physics"]
    [Analytics.mkCategory 1 "technology"; Analytics.mkCategory 2 "science"]
    [Analytics.mkLink 1 1; Analytics.mkLink 1 2].

(** 160 articles, the first 23 of them filed under the one category. *)
Definition census_db : Analytics.Database :=
  Analytics.mkDatabase
    (map (fun i => Analytics.mkArticle (Z.of_nat i) "") (seq 1 160))
    [Analytics.mkCategory 1 "local"]
    (map (fun i => Analytics.mkLink (Z.of_nat i) 1) (seq 1 23)).

(** An engine that hands over the groups in the order they were formed,
    and one that hands them over in the opposite order. *)
Definition keeps_order (groups : list (string * Z)) : list (string * Z) := groups.
Definition reverses_order (groups : list (string * Z)) : list (string * Z) := rev groups.

(** A classifier with no model installed and a keyword strategy that finds
    nothing. *)
Definition no_models : Classifier.Strategies :=
  Classifier.mkStrategies
    (fun _ => inr ""%string)
    (fun _ _ => inr ([], 0%Q))
    None None.

(** An article that carries nothing but its identifier. *)
Definition bare_article : gmap string pyval := {[ "id" := PInt 12 ]}.

(** Descending by key. *)
Definition descending {A} (key : A → Q) (l : list A) : Prop :=
  StronglySorted (fun a b => (key b <= key a)%Q) l.

(** A text of four sentences. *)
Definition harbour_report : string :=
  "The harbour reopened today. Ferries sail from the harbour again. It rained. Ferries were full.".

(** A limiter with a quota of two per minute and a client that has used
    both, at seconds 0 and 1. *)
Definition busy_limiter : RateLimit.RateLimiter :=
  RateLimit.mkRateLimiter 2 60 {[ "203.0.113.9" := [0%Q; 1%Q] ]}.

(** The page numbers [first], [first + 1], ..., [n] of them. *)
Fixpoint page_numbers (first : Z) (n : nat) : list Z :=
  match n with
  | O => []
  | S n' => first :: page_numbers (first + 1) n'
  end.

(** A response whose object has a key made of digits. *)
Definition yearly_response : gmap string pyval :=
  {[ "2024" := PInt 7; "total" := PInt 45 ]}.

(** The title of the article and that of the candidate are both strings,
    equal and not empty once stripped and lowercased. *)
Definition same_title (a c : gmap string pyval) : Prop :=
  ∃ t ct, field a "title" = PStr t ∧ c !! "title" = Some (PStr ct)
          ∧ lower (strip t) = lower (strip ct) ∧ lower (strip t) ≠ "".

(** The same for the URLs. *)
Definition same_url (a c : gmap string pyval) : Prop :=
  ∃ u cu, field a "url" = PStr u ∧ c !! "url" = Some (PStr cu)
          ∧ lower (strip u) = lower (strip cu) ∧ lower (strip u) ≠ "".




(** The similarity the fuzzy strategy computes between an article and a
    candidate. *)
Definition similarity_to (self : Dedup.DuplicateDetector) (a c : gmap string pyval) : M Q :=
  Dedup.calculate_similarity self (field a "title") (field a "content")
    (field c "title") (field c "content").

(** A candidate the fuzzy strategy looks at: it has a title or a content. *)
Definition has_text (c : gmap string pyval) : bool :=
  truthy (field c "title") || truthy (field c "content").


(** Two near-identical reports and an unrelated one. *)
Definition storm_article : gmap string pyval :=
  {[ "id" := PInt 21; "title" := PStr "Storm closes the northern harbour" ]}.

Definition storm_candidate : gmap string pyval :=
  {[ "id" := PInt 20; "title" := PStr "Storm closes the northern harbour!" ]}.

(** A word as [str.split] yields it: not empty and free of white space. *)
Definition is_word (w : string) : Prop :=
  w ≠ "" ∧ Forall (fun c => isspace c = false) (chars w).

(** The number of times a word occurs in a list of words. *)
Definition occurrences (w : string) (ws : list string) : Z :=
  Z.of_nat (length (List.filter (String.eqb w) ws)).

(** The words [extract_keywords] counts: those of the lowercased text, rid
    of special characters, that are long enough. *)
Definition counted_words (s : string) (min_word_length : Z) : list string :=
  List.filter (fun w => (min_word_length <=? len w)%Z)
    (split_ws (TextUtils.remove_special_chars (lower s))).

(** The count on record for a word ([0] when it has none). *)
Fixpoint count_of (w : string) (counts : list (string * Z)) : Z :=
  match counts with
  | [] => 0
  | (v, n) :: rest => if String.eqb v w then n else count_of w rest
  end.

(** A keyword strategy that files every text under sports with confidence
    0.7, and a titled article for it. *)
Definition sport_keywords : Classifier.Strategies :=
  Classifier.mkStrategies
    (fun _ => inr "cup final tonight"%string)
    (fun _ _ => inr (["sports"%string], (7 # 10)%Q))
    None None.

Definition match_report : gmap string pyval :=
  {[ "id" := PInt 5; "title" := PStr "Cup final tonight" ]}.

(** The scheduler after a series of [crawl_source] calls, each with what it
    draws from outside and the source it crawls. *)
Fixpoint crawl_all (self : Scheduler.CrawlerScheduler)
    (calls : list (Scheduler.Env * string)) : Scheduler.CrawlerScheduler :=
  match calls with
  | [] => self
  | (env, source_id) :: rest => crawl_all (fst (Scheduler.crawl_source self env source_id)) rest
  end.

(** A weather note: "tide" three times, "wind" twice, "rain" once. *)
Definition weather_note : string := "Tide, tide, tide. Wind; wind! Rain at 5.".

(** ** Rounding to the nearest float *)

Section FloatFacts.
Local Open Scope Q_scope.

Lemma Qltb_iff (x y : Q) : Qltb x y = true ↔ x < y.
Proof.
  unfold Qltb. rewrite negb_true_iff. split.
  - intros H. apply Qnot_le_lt. intros Hle. apply Qle_bool_iff in Hle. congruence.
  - intros H. destruct (Qle_bool y x) eqn:E; [|done].
    apply Qle_bool_iff in E. exfalso. by apply (Qlt_not_le x y).
Qed.

Lemma Qltb_false_iff (x y : Q) : Qltb x y = false ↔ y <= x.
Proof. unfold Qltb. rewrite negb_false_iff. apply Qle_bool_iff. Qed.

Lemma Qltb_comp (x x' y y' : Q) : x == x' → y == y' → Qltb x y = Qltb x' y'.
Proof.
  intros Hx Hy. destruct (Qltb x' y') eqn:E.
  - apply Qltb_iff. apply Qltb_iff in E. by rewrite Hx, Hy.
  - apply Qltb_false_iff. apply Qltb_false_iff in E. by rewrite Hx, Hy.
Qed.

Lemma pow2_pos (e : Z) : 0 < pow2 e.
Proof. apply Qpower_0_lt. reflexivity. Qed.

Lemma pow2_add (a b : Z) : pow2 (a + b) == pow2 a * pow2 b.
Proof. apply Qpower_plus. discriminate. Qed.

Lemma pow2_le (a b : Z) : (a <= b)%Z → pow2 a <= pow2 b.
Proof. intros H. apply Qpower_le_compat_l; [exact H | discriminate]. Qed.

Lemma pow2_lt (a b : Z) : (a < b)%Z → pow2 a < pow2 b.
Proof. intros H. apply Qpower_lt_compat_l; [exact H | reflexivity]. Qed.

Lemma pow2_Z (e : Z) : (0 <= e)%Z → pow2 e == inject_Z (2 ^ e).
Proof. intros H. symmetry. apply (Zpower_Qpower 2 e H). Qed.

(** *** Rounding to the nearest integer *)

Lemma round_half_even_cases (x : Q) :
  (round_half_even x = Qfloor x ∧ x - inject_Z (Qfloor x) <= 1 # 2)
  ∨ (round_half_even x = (Qfloor x + 1)%Z ∧ 1 # 2 <= x - inject_Z (Qfloor x)).
Proof.
  unfold round_half_even.
  destruct (Qltb (x - inject_Z (Qfloor x)) (1 # 2)) eqn:E1.
  { left. split; [done|]. apply Qltb_iff in E1. by apply Qlt_le_weak. }
  destruct (Qltb (1 # 2) (x - inject_Z (Qfloor x))) eqn:E2.
  { right. split; [done|]. apply Qltb_iff in E2. by apply Qlt_le_weak. }
  apply Qltb_false_iff in E1, E2.
  destruct (Z.even (Qfloor x)); [left|right]; done.
Qed.

Lemma round_half_even_comp (x y : Q) : x == y → round_half_even x = round_half_even y.
Proof.
  intros H. unfold round_half_even.
  assert (Hf : Qfloor x = Qfloor y) by (by rewrite H).
  rewrite Hf.
  rewrite (Qltb_comp (x - inject_Z (Qfloor y)) (y - inject_Z (Qfloor y)) (1 # 2) (1 # 2));
    [|by rewrite H|reflexivity].
  rewrite (Qltb_comp (1 # 2) (1 # 2) (x - inject_Z (Qfloor y)) (y - inject_Z (Qfloor y)));
    [done|reflexivity|by rewrite H].
Qed.

Lemma round_half_even_Z (n : Z) : round_half_even (inject_Z n) = n.
Proof.
  unfold round_half_even. rewrite Qfloor_Z.
  replace (Qltb (inject_Z n - inject_Z n) (1 # 2)) with true; [done|].
  symmetry. rewrite (Qltb_comp _ 0 _ (1 # 2)); [reflexivity|ring|reflexivity].
Qed.

Lemma round_half_even_le (x : Q) : inject_Z (round_half_even x) <= x + (1 # 2).
Proof.
  pose proof (Qfloor_le x) as Hlo. pose proof (Qlt_floor x) as Hhi.
  rewrite inject_Z_plus in Hhi.
  destruct (round_half_even_cases x) as [[-> H]|[-> H]];
    rewrite ?inject_Z_plus; change (inject_Z 1) with 1 in *;
    generalize dependent (inject_Z (Qfloor x)); intros f Hlo Hhi H; lra.
Qed.

Lemma round_half_even_ge (x : Q) : x - (1 # 2) <= inject_Z (round_half_even x).
Proof.
  pose proof (Qfloor_le x) as Hlo. pose proof (Qlt_floor x) as Hhi.
  rewrite inject_Z_plus in Hhi.
  destruct (round_half_even_cases x) as [[-> H]|[-> H]];
    rewrite ?inject_Z_plus; change (inject_Z 1) with 1 in *;
    generalize dependent (inject_Z (Qfloor x)); intros f Hlo Hhi H; lra.
Qed.

Lemma round_half_even_mono (x y : Q) :
  x <= y → (round_half_even x <= round_half_even y)%Z.
Proof.
  intros Hxy. pose proof (Qfloor_resp_le x y Hxy) as Hf.
  destruct (Z.eq_dec (Qfloor x) (Qfloor y)) as [Heq|Hne].
  - destruct (round_half_even_cases x) as [[Hx Hdx]|[Hx Hdx]];
      destruct (round_half_even_cases y) as [[Hy Hdy]|[Hy Hdy]]; try lia.
    (* x rounds up and y rounds down: both are the same tie *)
    rewrite (round_half_even_comp x y); [lia|].
    rewrite Heq in Hdx. apply Qle_antisym; [done|].
    generalize dependent (inject_Z (Qfloor y)). intros f Hdx Hdy. lra.
  - destruct (round_half_even_cases x) as [[Hx _]|[Hx _]];
      destruct (round_half_even_cases y) as [[Hy _]|[Hy _]]; lia.
Qed.

(** *** The binade of a positive rational *)

Lemma binade_spec (x : Q) : 0 < x → pow2 (binade x) <= x ∧ x < pow2 (binade x + 1).
Proof.
  destruct x as [n d]. intros Hpos.
  assert (Hn : (0 < n)%Z) by (unfold Qlt in Hpos; simpl in Hpos; lia).
  unfold binade. cbn [Qnum Qden].
  set (a := Z.log2 n). set (b := Z.log2 (Z.pos d)).
  assert (Ha : (0 <= a)%Z) by apply Z.log2_nonneg.
  assert (Hb : (0 <= b)%Z) by apply Z.log2_nonneg.
  destruct (Z.log2_spec n Hn) as [Ha1 Ha2]. fold a in Ha1, Ha2.
  destruct (Z.log2_spec (Z.pos d) (Pos2Z.is_pos d)) as [Hb1 Hb2]. fold b in Hb1, Hb2.
  rewrite <- Z.add_1_r in Ha2, Hb2.
  assert (Hpa : (0 < 2 ^ a)%Z) by (apply Z.pow_pos_nonneg; lia).
  assert (Hpb : (0 < 2 ^ b)%Z) by (apply Z.pow_pos_nonneg; lia).
  assert (Hupper : n # d < pow2 (a - b + 1)).
  { apply (Qmult_lt_r _ _ (pow2 b) (pow2_pos b)). rewrite <- pow2_add.
    replace (a - b + 1 + b)%Z with (a + 1)%Z by lia.
    rewrite (pow2_Z b), (pow2_Z (a + 1)) by lia.
    unfold Qlt, Qmult. cbn [Qnum Qden inject_Z]. nia. }
  assert (Hlower : pow2 (a - b - 1) <= n # d).
  { apply (Qmult_le_r _ _ (pow2 (b + 1)) (pow2_pos (b + 1))). rewrite <- pow2_add.
    replace (a - b - 1 + (b + 1))%Z with a by lia.
    rewrite (pow2_Z a), (pow2_Z (b + 1)) by lia.
    unfold Qle, Qmult. cbn [Qnum Qden inject_Z]. nia. }
  destruct (Qle_bool (pow2 (a - b)) (n # d)) eqn:E.
  - apply Qle_bool_iff in E. done.
  - split; [done|]. replace (a - b - 1 + 1)%Z with (a - b)%Z by lia.
    apply Qnot_le_lt. intros H. apply Qle_bool_iff in H. congruence.
Qed.

Lemma binade_mono (x y : Q) : 0 < x → x <= y → (binade x <= binade y)%Z.
Proof.
  intros Hx Hxy.
  assert (Hy : 0 < y) by (eapply Qlt_le_trans; eassumption).
  destruct (binade_spec x Hx) as [Hx1 _]. destruct (binade_spec y Hy) as [_ Hy2].
  destruct (Z_le_gt_dec (binade x) (binade y)) as [|Hgt]; [done|].
  exfalso. apply (Qlt_irrefl y).
  eapply Qlt_le_trans; [exact Hy2|].
  eapply Qle_trans; [apply (pow2_le (binade y + 1) (binade x)); lia|].
  by eapply Qle_trans.
Qed.

Lemma quantum_mono (x y : Q) : 0 < x → x <= y → (quantum x <= quantum y)%Z.
Proof. intros Hx Hxy. pose proof (binade_mono x y Hx Hxy). unfold quantum. lia. Qed.

(** *** Rounding a positive rational *)

Lemma fl_pos_upper (x : Q) : 0 < x → fl_pos x <= pow2 (quantum x + 53).
Proof.
  intros Hx. destruct (binade_spec x Hx) as [_ Hhi]. unfold fl_pos.
  assert (Hm : (round_half_even (x / pow2 (quantum x)) <= 2 ^ 53)%Z).
  { rewrite <- (round_half_even_Z (2 ^ 53)). apply round_half_even_mono.
    apply Qle_shift_div_r; [apply pow2_pos|].
    rewrite <- pow2_Z by lia. rewrite <- pow2_add.
    apply Qlt_le_weak. eapply Qlt_le_trans; [exact Hhi|].
    apply pow2_le. unfold quantum. lia. }
  rewrite (Z.add_comm (quantum x) 53), pow2_add, (pow2_Z 53) by lia.
  apply Qmult_le_compat_r; [|apply Qlt_le_weak, pow2_pos].
  by rewrite <- Zle_Qle.
Qed.

Lemma fl_pos_lower (x : Q) :
  0 < x → quantum x = (binade x - 52)%Z → pow2 (binade x) <= fl_pos x.
Proof.
  intros Hx Hq. destruct (binade_spec x Hx) as [Hlo _]. unfold fl_pos.
  assert (Hm : (2 ^ 52 <= round_half_even (x / pow2 (quantum x)))%Z).
  { rewrite <- (round_half_even_Z (2 ^ 52)) at 1. apply round_half_even_mono.
    apply Qle_shift_div_l; [apply pow2_pos|].
    rewrite <- pow2_Z by lia. rewrite <- pow2_add.
    eapply Qle_trans; [|exact Hlo]. apply pow2_le. lia. }
  replace (binade x) with (52 + quantum x)%Z at 1 by lia.
  rewrite pow2_add, (pow2_Z 52) by lia.
  apply Qmult_le_compat_r; [|apply Qlt_le_weak, pow2_pos].
  by rewrite <- Zle_Qle.
Qed.

Lemma fl_pos_nonneg (x : Q) : 0 <= x → 0 <= fl_pos x.
Proof.
  intros Hx. unfold fl_pos. apply Qmult_le_0_compat; [|apply Qlt_le_weak, pow2_pos].
  change 0 with (inject_Z 0). rewrite <- Zle_Qle.
  rewrite <- (round_half_even_Z 0) at 1. apply round_half_even_mono.
  apply Qle_shift_div_l; [apply pow2_pos|]. by rewrite Qmult_0_l.
Qed.

Lemma fl_pos_mono (x y : Q) : 0 < x → x <= y → fl_pos x <= fl_pos y.
Proof.
  intros Hx Hxy.
  assert (Hy : 0 < y) by (eapply Qlt_le_trans; eassumption).
  pose proof (quantum_mono x y Hx Hxy) as Hq.
  destruct (Z.eq_dec (quantum x) (quantum y)) as [Heq|Hne].
  - unfold fl_pos. rewrite Heq.
    apply Qmult_le_compat_r; [|apply Qlt_le_weak, pow2_pos].
    rewrite <- Zle_Qle. apply round_half_even_mono.
    apply Qmult_le_compat_r; [done|]. apply Qlt_le_weak, Qinv_lt_0_compat, pow2_pos.
  - assert (Hnormal : quantum y = (binade y - 52)%Z) by (unfold quantum in *; lia).
    eapply Qle_trans; [apply (fl_pos_upper x Hx)|].
    eapply Qle_trans; [|apply (fl_pos_lower y Hy Hnormal)].
    apply pow2_le. lia.
Qed.

(** *** Rounding any rational *)

Lemma fl_comp (x y : Q) : x == y → fl x = fl y.
Proof. intros H. unfold fl. by rewrite (Qred_complete x y H). Qed.

Lemma fl_zero (x : Q) : x == 0 → fl x = 0.
Proof. intros H. rewrite (fl_comp x 0 H). reflexivity. Qed.

Lemma fl_positive (x : Q) : 0 < x → fl x == fl_pos (Qred x).
Proof.
  intros Hx. unfold fl. rewrite Qred_correct.
  assert (Hx' : 0 < Qred x) by (by rewrite Qred_correct).
  destruct (Qeq_bool (Qred x) 0) eqn:E.
  { apply Qeq_bool_iff in E. rewrite E in Hx'. by apply Qlt_irrefl in Hx'. }
  by rewrite (proj2 (Qltb_iff 0 (Qred x)) Hx').
Qed.

Lemma fl_nonneg (x : Q) : 0 <= x → 0 <= fl x.
Proof.
  intros Hx. destruct (Qeq_dec x 0) as [H0|Hne].
  - rewrite (fl_zero x H0). apply Qle_refl.
  - assert (Hpos : 0 < x).
    { apply Qle_lteq in Hx as [Hlt|Heq]; [done|]. exfalso. apply Hne. by symmetry. }
    rewrite (fl_positive x Hpos). apply fl_pos_nonneg. rewrite Qred_correct.
    by apply Qlt_le_weak.
Qed.

(** Rounding is monotone (on the non-negative rationals). *)
Lemma fl_mono (x y : Q) : 0 <= x → x <= y → fl x <= fl y.
Proof.
  intros Hx Hxy. destruct (Qeq_dec x 0) as [H0|Hne].
  - rewrite (fl_zero x H0). apply fl_nonneg. by eapply Qle_trans.
  - assert (Hpos : 0 < x).
    { apply Qle_lteq in Hx as [Hlt|Heq]; [done|]. exfalso. apply Hne. by symmetry. }
    assert (Hy : 0 < y) by (eapply Qlt_le_trans; eassumption).
    rewrite (fl_positive x Hpos), (fl_positive y Hy).
    apply fl_pos_mono; rewrite !Qred_correct; done.
Qed.

Lemma fl_one : fl 1 = 1.
Proof. vm_compute. reflexivity. Qed.

(** A value halfway between 1 and the next float rounds to 1. *)
Lemma fl_one_tie : fl (1 + pow2 (-53)) = 1.
Proof. vm_compute. reflexivity. Qed.

(** Below 1, rounding adds at most half a unit in the last place of the
    floats below 1. *)
Lemma fl_below_one (x : Q) : 0 <= x → x <= 1 → fl x <= x + pow2 (-54).
Proof.
  intros Hx Hx1. destruct (Qeq_dec x 0) as [H0|Hne].
  { rewrite (fl_zero x H0), H0. apply Qlt_le_weak. reflexivity. }
  assert (Hpos : 0 < x).
  { apply Qle_lteq in Hx as [Hlt|Heq]; [done|]. exfalso. apply Hne. by symmetry. }
  apply Qle_lteq in Hx1 as [Hlt|Heq].
  2:{ rewrite (fl_comp x 1 Heq), fl_one, Heq. apply Qlt_le_weak. reflexivity. }
  rewrite (fl_positive x Hpos).
  assert (Hr : 0 < Qred x) by (by rewrite Qred_correct).
  assert (Hr1 : Qred x < 1) by (by rewrite Qred_correct).
  rewrite <- (Qred_correct x) at 2.
  generalize dependent (Qred x). clear. intros r Hr Hr1.
  destruct (binade_spec r Hr) as [Hlo _].
  assert (Hb : (binade r < 0)%Z).
  { apply (Qpower_lt_compat_l_inv 2); [|reflexivity].
    eapply Qle_lt_trans; [exact Hlo|]. exact Hr1. }
  assert (Hq : (quantum r - 1 <= -54)%Z) by (unfold quantum; lia).
  eapply Qle_trans; [|apply Qplus_le_r, (pow2_le _ _ Hq)].
  unfold fl_pos.
  eapply Qle_trans.
  { apply Qmult_le_compat_r; [apply round_half_even_le | apply Qlt_le_weak, pow2_pos]. }
  assert (Hhalf : pow2 (quantum r - 1) == (1 # 2) * pow2 (quantum r)).
  { replace (quantum r - 1)%Z with (-1 + quantum r)%Z by lia. by rewrite pow2_add. }
  rewrite Hhalf. rewrite Qmult_plus_distr_l.
  apply Qplus_le_l. unfold Qdiv. rewrite <- Qmult_assoc.
  rewrite (Qmult_comm (/ pow2 (quantum r))), Qmult_inv_r, Qmult_1_r; [apply Qle_refl|].
  intros H0. pose proof (pow2_pos (quantum r)) as Hp. rewrite H0 in Hp.
  by apply Qlt_irrefl in Hp.
Qed.

End FloatFacts.

(** ** Scheduler: what [crawl_source] records *)

Section SchedulerFacts.
Import Scheduler.

(** The configuration class has no attribute named [interval]. *)
Lemma getattr_interval (config : SourceConfig) :
  getattr config "interval" = inl AttributeError.
Proof. reflexivity. Qed.

Lemma crawl_except_raises self env source_id config :
  crawl_except self env source_id config = (self, inl AttributeError).
Proof. unfold crawl_except. by rewrite getattr_interval. Qed.

End SchedulerFacts.

(** C1.  After a successful fetch [crawl_source] records the time of the
    crawl, then fails on [source.config.interval]: the handler fails on the
    same attribute, the call ends with [AttributeError], and the next crawl
    time of every source is what it was before the call.  No time in
    [now + max(I, min_interval) * (1 -/+ jitter)] is recorded. *)
Theorem crawl_source_success_schedule (self : Scheduler.CrawlerScheduler)
    (env : Scheduler.Env) (source_id : string) (config : Scheduler.SourceConfig)
    (articles : pyval) :
  Scheduler.source_instances self !! source_id = Some config →
  Scheduler.process_result env = inr articles →
  Scheduler.crawl_source self env source_id =
    (Scheduler.set_last self
       (<[source_id := Scheduler.now_last env]> (Scheduler.last_crawl_time self)),
     inl AttributeError)
  ∧ Scheduler.next_crawl_time (fst (Scheduler.crawl_source self env source_id))
    = Scheduler.next_crawl_time self.
Proof.
  intros Hsrc Hok.
  assert (Hrun : Scheduler.crawl_source self env source_id =
    (Scheduler.set_last self
       (<[source_id := Scheduler.now_last env]> (Scheduler.last_crawl_time self)),
     inl AttributeError)).
  { unfold Scheduler.crawl_source. rewrite Hsrc.
    unfold Scheduler.crawl_try. rewrite Hok, getattr_interval.
    apply crawl_except_raises. }
  split; [exact Hrun | by rewrite Hrun].
Qed.

Lemma crawl_source_success_schedule_witness :
  Scheduler.crawl_source scheduler_with_feed fetch_ok "1" =
    (Scheduler.set_last scheduler_with_feed
       (<["1" := 1005%Q]> (Scheduler.last_crawl_time scheduler_with_feed)),
     inl AttributeError)
  ∧ Scheduler.next_crawl_time (fst (Scheduler.crawl_source scheduler_with_feed fetch_ok "1"))
    = {[ "1" := 1000%Q ]}.
Proof.
  apply (crawl_source_success_schedule scheduler_with_feed fetch_ok "1" feed (PDict ∅)).
  - reflexivity.
  - reflexivity.
Defined.



(** ** API source: when pagination stops *)

Section ApiSourceFacts.
Import ApiSource.

Lemma one_full_page (n : Z) : (1 <= n)%Z → ((n + n - 1) / n = 1)%Z.
Proof. intros H. symmetry. apply Z.div_unique with (r := (n - 1)%Z); lia. Qed.

Lemma Qfloor_one (x : Q) : (1 <= x)%Q → (x < 2)%Q → Qfloor x = 1%Z.
Proof.
  intros Hlo Hhi.
  assert (H1 : (1 <= Qfloor x)%Z).
  { change 1%Z with (Qfloor (inject_Z 1)). by apply Qfloor_resp_le. }
  assert (H2 : (Qfloor x < 2)%Z).
  { rewrite Zlt_Qlt. eapply Qle_lt_trans; [apply Qfloor_le | exact Hhi]. }
  lia.
Qed.

(** A total equal to the page size makes exactly one page. *)
Lemma total_pages_one (total : pyval) (q : Q) (n : Z) :
  (1 <= n)%Z → as_number total = inr q → (q == inject_Z n)%Q →
  ∃ pages, total_pages total n = inr pages ∧ (pages == 1)%Q.
Proof.
  intros Hn Hnum Heq. unfold total_pages.
  destruct (Z.eqb_spec n 0) as [->|_]; [lia|].
  destruct total as [ |b|t|t| | | ]; simpl in Hnum; try discriminate;
    injection Hnum as <-.
  - (* bool *)
    destruct b.
    + assert (n = 1%Z) as ->. { unfold Qeq in Heq. simpl in Heq. lia. }
      eexists; split; [reflexivity | done].
    + exfalso. assert (0 = n)%Z; [|lia].
      unfold Qeq in Heq. simpl in Heq. lia.
  - (* int *)
    assert (t = n) as ->. { unfold Qeq in Heq. simpl in Heq. lia. }
    rewrite one_full_page by done. eexists; split; [reflexivity | done].
  - (* float *)
    eexists; split; [reflexivity|].
    assert (Hpos : (0 < inject_Z n)%Q) by (unfold Qlt; simpl; lia).
    assert (H1n : (1 <= inject_Z n)%Q) by (unfold Qle; simpl; lia).
    rewrite Qfloor_one; [done| |].
    + apply Qle_shift_div_l; [done|]. rewrite Heq. lra.
    + apply Qlt_shift_div_r; [done|]. rewrite Heq. lra.
Qed.

End ApiSourceFacts.

(** C3.  For an API source with [page_param] set: a page holding exactly
    [page_size] items, whose [total_path] resolves in the response object to
    a total equal to [page_size], has no further page (page numbers start at
    1); and a page holding fewer than [page_size] items, but at least one,
    has no further page whatever the response and the configured paths. *)
Theorem check_has_more_pages_stops (self : ApiSource.APISource) :
  truthy (ApiSource.page_param self) = true →
  (∀ (response_data : pyval) (current_page : Z) (items_count : nat) (total : pyval) (q : Q),
      Z.of_nat items_count = ApiSource.page_size self →
      ApiSource.is_dict response_data = true →
      truthy (ApiSource.total_path self) = true →
      ApiSource.resolve response_data (ApiSource.total_path self) = inr (Some total) →
      as_number total = inr q →
      (q == inject_Z (ApiSource.page_size self))%Q →
      (1 <= current_page)%Z →
      ApiSource.check_has_more_pages self response_data current_page items_count = false)
  ∧ (∀ (response_data : pyval) (current_page : Z) (items_count : nat),
      0 < items_count →
      (Z.of_nat items_count < ApiSource.page_size self)%Z →
      ApiSource.check_has_more_pages self response_data current_page items_count = false).
Proof.
  intros Hparam. split.
  - intros response_data current_page items_count total q Hfull Hdict Hpath Hres Hnum Heq Hpage.
    unfold ApiSource.check_has_more_pages. rewrite Hparam. simpl negb. cbv iota.
    destruct (Z.eqb_spec (Z.of_nat items_count) 0) as [|Hne]; [done|].
    destruct (Z.ltb_spec (Z.of_nat items_count) (ApiSource.page_size self)) as [|_]; [done|].
    rewrite Hpath, Hdict, Hres. simpl.
    destruct (total_pages_one total q (ApiSource.page_size self)) as (pages & -> & Hone);
      [lia | done | done |].
    simpl. unfold Qltb. apply negb_false_iff, Qle_bool_iff.
    rewrite Hone. unfold Qle. simpl. lia.
  - intros response_data current_page items_count Hpos Hlt.
    unfold ApiSource.check_has_more_pages. rewrite Hparam. simpl negb. cbv iota.
    destruct (Z.eqb_spec (Z.of_nat items_count) 0) as [|Hne]; [done|].
    destruct (Z.ltb_spec (Z.of_nat items_count) (ApiSource.page_size self)) as [|]; [done|lia].
Qed.

Lemma check_has_more_pages_stops_witness :
  ApiSource.check_has_more_pages paged_source one_page_response 1 10 = false
  ∧ ApiSource.check_has_more_pages paged_source one_page_response 1 3 = false.
Proof.
  destruct (check_has_more_pages_stops paged_source eq_refl) as [Hfull Hshort].
  split.
  - apply (Hfull one_page_response 1%Z 10 (PInt 10) (inject_Z 10)).
    + reflexivity.
    + reflexivity.
    + reflexivity.
    + vm_compute. reflexivity.
    + reflexivity.
    + reflexivity.
    + lia.
  - apply (Hshort one_page_response 1%Z 3).
    + lia.
    + simpl. lia.
Defined.

(** ** Deduplication: exact matches and articles without common words *)

Section DedupFacts.
Import Dedup.

Lemma nonempty_true (s : string) : nonempty s = true ↔ s ≠ "".
Proof.
  unfold nonempty. rewrite negb_true_iff. split.
  - intros H ->. by rewrite String.eqb_refl in H.
  - intros H. by apply String.eqb_neq.
Qed.










End DedupFacts.




(** ** Category distribution: what the counts add up to *)

Section AnalyticsFacts.
Import Analytics.

Lemma total_of_bump (w : string) (counts : list (string * Z)) :
  total_of (bump w counts) = (total_of counts + 1)%Z.
Proof.
  induction counts as [|[v n] rest IH]; simpl; [done|].
  destruct (String.eqb v w); simpl; [lia|]. rewrite IH. lia.
Qed.

Lemma total_of_fold (ws : list string) : ∀ counts,
  total_of (fold_left (fun counts w => bump w counts) ws counts)
  = (total_of counts + Z.of_nat (length ws))%Z.
Proof.
  induction ws as [|w ws IH]; intros counts; simpl; [lia|].
  rewrite IH, total_of_bump. lia.
Qed.

(** Grouping keeps every row: the counts add up to the number of rows. *)
Lemma total_of_count_words (ws : list string) :
  total_of (count_words ws) = Z.of_nat (length ws).
Proof. unfold count_words. by rewrite total_of_fold. Qed.

Lemma total_of_insert_desc (key : string * Z → Q) (x : string * Z)
    (rows : list (string * Z)) :
  total_of (insert_desc key x rows) = (snd x + total_of rows)%Z.
Proof.
  induction rows as [|y ys IH]; simpl; [done|].
  destruct (Qltb (key x) (key y)); simpl; [|done]. rewrite IH. lia.
Qed.

(** Ordering the groups does not change the sum. *)
Lemma total_of_sort_desc (key : string * Z → Q) (rows : list (string * Z)) :
  total_of (sort_desc key rows) = total_of rows.
Proof.
  induction rows as [|x xs IH]; simpl; [done|].
  by rewrite total_of_insert_desc, IH.
Qed.

Lemma sum_counts_entries (f : string * Z → Q) (rows : list (string * Z)) :
  sum_counts (map (fun r => mkEntry (fst r) (snd r) (f r)) rows) = total_of rows.
Proof. induction rows as [|r rs IH]; simpl; [done|]. by rewrite IH. Qed.

Lemma flat_map_nil {A B} (f : A → list B) (l : list A) :
  (∀ x, f x = []) → flat_map f l = [].
Proof. intros H. induction l as [|x l IH]; simpl; [done|]. by rewrite H, IH. Qed.

(** Without articles the join has no row. *)
Lemma joined_no_articles (db : Database) : articles db = [] → joined db = [].
Proof.
  intros Hno. unfold joined. apply flat_map_nil. intros c.
  apply flat_map_nil. intros l. rewrite Hno.
  by destruct (link_category_id l =? category_id c)%Z.
Qed.

(** The sum does not depend on the order of the groups. *)
Lemma total_of_perm (rows rows' : list (string * Z)) :
  rows ≡ₚ rows' → total_of rows = total_of rows'.
Proof. induction 1; simpl; lia. Qed.

End AnalyticsFacts.

(** C5, as stated, fails when an article has two categories: the counts
    add up to 2 while the total used for the percentages is 1.  And the
    percentage is rounded from a binary float: 23 articles of 160 give
    14.37, where the quotient 14.375 rounds to 14.38. *)
Lemma category_counts_exceed_total :
  (Analytics.get_category_distribution keeps_order two_category_db
   = [Analytics.mkEntry "technology" 1 100; Analytics.mkEntry "science" 1 100]
   ∧ Analytics.sum_counts (Analytics.get_category_distribution keeps_order two_category_db)
     = 2%Z
   ∧ Analytics.total_count two_category_db = 1%Z)
  ∧ (Analytics.get_category_distribution keeps_order census_db
     = [Analytics.mkEntry "local" 23 (fl (1437 # 100))]
     ∧ Analytics.total_count census_db = 160%Z
     ∧ Qred (round2 (23 / 160 * 100)) = (719 # 50)%Q
     ∧ ¬ (fl (1437 # 100) == fl (719 # 50))%Q).
Proof.
  split; [vm_compute; repeat split; reflexivity|].
  split; [vm_compute; reflexivity|]. split; [vm_compute; reflexivity|].
  split; [vm_compute; reflexivity|]. vm_compute. discriminate.
Qed.

(** C5, amended.  For every database state, and whatever the order in
    which the engine returns categories of equal count, the counts of the
    returned categories add up to the number of article-category links that
    join a stored category to a stored article, and every entry's
    percentage is what [round((count / total) * 100, 2)] gives in float
    arithmetic, [total] being the total article count. *)
Theorem category_distribution_counts
    (group_order : list (string * Z) → list (string * Z)) (db : Analytics.Database) :
  (∀ groups, group_order groups ≡ₚ groups) →
  Analytics.sum_counts (Analytics.get_category_distribution group_order db)
  = Z.of_nat (length (Analytics.joined db))
  ∧ Forall (fun e =>
              Analytics.percentage e
              = float_round2
                  (fmul (int_div (Analytics.count e) (Analytics.total_count db)) 100))
           (Analytics.get_category_distribution group_order db).
Proof.
  intros Hengine. unfold Analytics.get_category_distribution.
  destruct (Z.eqb_spec (Analytics.total_count db) 0) as [Hzero|Hpos].
  - split; [|constructor].
    rewrite joined_no_articles; [done|].
    unfold Analytics.total_count in Hzero.
    destruct (Analytics.articles db); [done | simpl in Hzero; lia].
  - split.
    + rewrite (sum_counts_entries
                 (fun r => float_round2
                             (fmul (int_div (snd r) (Analytics.total_count db)) 100))).
      unfold Analytics.grouped.
      rewrite total_of_sort_desc, (total_of_perm _ _ (Hengine _)).
      apply total_of_count_words.
    + apply Forall_forall. intros e He. apply list_elem_of_In, in_map_iff in He.
      destruct He as (r & <- & _). reflexivity.
Qed.

Lemma category_distribution_counts_witness :
  Analytics.sum_counts (Analytics.get_category_distribution reverses_order two_category_db)
  = 2%Z
  ∧ Forall (fun e =>
              Analytics.percentage e
              = float_round2
                  (fmul (int_div (Analytics.count e) (Analytics.total_count two_category_db))
                     100))
           (Analytics.get_category_distribution reverses_order two_category_db).
Proof.
  apply (category_distribution_counts reverses_order two_category_db).
  intros groups. unfold reverses_order. symmetry. apply Permutation_rev.
Defined.

(** ** Classifier: the fallback for an article without text *)

(** C6, as stated, fails on the confidence: for an article with neither
    content nor title the default category is set, but no classification
    confidence is recorded. *)
Lemma classifier_fallback_no_confidence :
  truthy (dict_get bare_article "content") = false
  ∧ truthy (dict_get bare_article "title") = false
  ∧ Classifier.process no_models Classifier.default_classifier bare_article
    = {[ "id" := PInt 12; "categories" := PList [PStr "general"] ]}
  ∧ Classifier.classification_confidence
      (Classifier.process no_models Classifier.default_classifier bare_article) = None.
Proof.
  split; [reflexivity|]. split; [reflexivity|]. split.
  - vm_compute. reflexivity.
  - vm_compute. reflexivity.
Qed.

(** C6, amended.  For every article with neither content nor title, a
    classifier that is enabled, and that either finds no categories on the
    article or is set to override them, returns the article with its
    categories equal to exactly the default category and everything else
    as it was: no classification confidence is recorded. *)
Theorem classifier_fallback (strategies : Classifier.Strategies)
    (self : Classifier.Classifier) (a : gmap string pyval) :
  Classifier.enabled self = true →
  truthy (dict_get a "categories") && negb (Classifier.override_existing self) = false →
  truthy (dict_get a "content") = false →
  truthy (dict_get a "title") = false →
  Classifier.process strategies self a
  = <["categories" := PList [PStr (Classifier.default_category self)]]> a
  ∧ Classifier.process strategies self a !! "categories"
    = Some (PList [PStr (Classifier.default_category self)])
  ∧ Classifier.classification_confidence (Classifier.process strategies self a)
    = Classifier.classification_confidence a.
Proof.
  intros Hon Hcats Hcontent Htitle.
  assert (Hrun : Classifier.process strategies self a
                 = <["categories" := PList [PStr (Classifier.default_category self)]]> a).
  { unfold Classifier.process, Classifier.process_try.
    rewrite Hon, Hcats, Hcontent, Htitle. reflexivity. }
  rewrite Hrun. split; [reflexivity|]. split.
  - apply lookup_insert_eq.
  - unfold Classifier.classification_confidence. by rewrite lookup_insert_ne.
Qed.

Lemma classifier_fallback_witness :
  Classifier.process no_models Classifier.default_classifier bare_article
  = <["categories" := PList [PStr "general"]]> bare_article
  ∧ Classifier.process no_models Classifier.default_classifier bare_article !! "categories"
    = Some (PList [PStr "general"])
  ∧ Classifier.classification_confidence
      (Classifier.process no_models Classifier.default_classifier bare_article)
    = Classifier.classification_confidence bare_article.
Proof.
  apply (classifier_fallback no_models Classifier.default_classifier bare_article).
  - reflexivity.
  - vm_compute. reflexivity.
  - vm_compute. reflexivity.
  - vm_compute. reflexivity.
Defined.

(** ** Extractive summary: which sentences are kept *)

Section SortFacts.
Context {A : Type} (key : A → Q).

Lemma Qltb_false_le (x y : Q) : Qltb x y = false → (y <= x)%Q.
Proof. unfold Qltb. intros H. apply negb_false_iff in H. by apply Qle_bool_iff. Qed.

Lemma Qltb_true_lt (x y : Q) : Qltb x y = true → (x < y)%Q.
Proof.
  unfold Qltb. intros H. apply negb_true_iff in H. apply Qnot_le_lt.
  intros Hle. apply Qle_bool_iff in Hle. congruence.
Qed.

Lemma insert_desc_perm (x : A) (l : list A) : insert_desc key x l ≡ₚ x :: l.
Proof.
  induction l as [|y ys IH]; simpl; [done|].
  destruct (Qltb (key x) (key y)); [|done].
  rewrite IH. apply Permutation_swap.
Qed.

Lemma sort_desc_perm (l : list A) : sort_desc key l ≡ₚ l.
Proof.
  induction l as [|x xs IH]; simpl; [done|].
  rewrite insert_desc_perm. by rewrite IH.
Qed.

Lemma insert_desc_descending (x : A) (l : list A) :
  descending key l → descending key (insert_desc key x l).
Proof.
  induction l as [|y ys IH]; intros Hl; simpl.
  - repeat constructor.
  - apply StronglySorted_inv in Hl as [Hys Hy].
    destruct (Qltb (key x) (key y)) eqn:E.
    + constructor; [by apply IH|].
      apply Forall_forall. intros z Hz.
      rewrite insert_desc_perm in Hz.
      apply elem_of_cons in Hz as [->|Hz].
      * apply Qlt_le_weak. by apply Qltb_true_lt.
      * rewrite Forall_forall in Hy. by apply Hy.
    + apply Qltb_false_le in E. constructor.
      * by constructor.
      * constructor; [done|].
        apply Forall_forall. intros z Hz. rewrite Forall_forall in Hy.
        eapply Qle_trans; [by apply Hy | done].
Qed.

Lemma sort_desc_descending (l : list A) : descending key (sort_desc key l).
Proof.
  induction l as [|x xs IH]; simpl; [constructor|].
  by apply insert_desc_descending.
Qed.

(** In a descending list nothing past a cut has a larger key than
    anything before it. *)
Lemma descending_cut (l : list A) : descending key l →
  ∀ n a b, a ∈ firstn n l → b ∈ skipn n l → (key b <= key a)%Q.
Proof.
  induction 1 as [|x xs Hxs IH Hx]; intros n a b Ha Hb.
  - rewrite firstn_nil in Ha. by apply elem_of_nil in Ha.
  - destruct n as [|n]; simpl in *; [by apply elem_of_nil in Ha|].
    apply elem_of_cons in Ha as [->|Ha].
    + rewrite Forall_forall in Hx. apply Hx.
      by apply (subseteq_drop n xs).
    + by apply (IH n).
Qed.

Lemma slice_to_prefix (k : Z) (l : list A) :
  ∃ n, slice_to k l = firstn n l.
Proof. unfold slice_to. destruct (0 <=? k)%Z; eauto. Qed.

End SortFacts.

Section TextUtilsFacts.
Import TextUtils.

Lemma mem_elem_of (x : string) (l : list string) : mem x l = true ↔ x ∈ l.
Proof.
  unfold mem. rewrite existsb_exists. split.
  - intros (y & Hy & Heq). apply String.eqb_eq in Heq as ->. by apply list_elem_of_In.
  - intros H. exists x. split; [by apply list_elem_of_In | apply String.eqb_refl].
Qed.

Lemma filter_sublist {B} (f : B → bool) (l : list B) : sublist (List.filter f l) l.
Proof.
  induction l as [|x l IH]; simpl; [constructor|].
  destruct (f x); by constructor.
Qed.

(** A kept sentence scores at least as high as a dropped one. *)
Lemma top_sentences_best (s : string) (sentences : list string) (k : Z) (x y : string) :
  x ∈ top_sentences s sentences k → y ∈ sentences → y ∉ top_sentences s sentences k →
  (sentence_score (extract_keywords s 20 3) y
   <= sentence_score (extract_keywords s 20 3) x)%Q.
Proof.
  unfold top_sentences.
  set (score := sentence_score (extract_keywords s 20 3)).
  set (scored := map (fun x => (x, score x)) sentences).
  destruct (slice_to_prefix k (sort_desc snd scored)) as [n ->].
  intros Hx Hy Hny.
  assert (Hscored : ∀ p, p ∈ sort_desc snd scored → snd p = score (fst p)).
  { intros p Hp. rewrite sort_desc_perm in Hp. subst scored.
    apply list_elem_of_In, in_map_iff in Hp. by destruct Hp as (z & <- & _). }
  apply list_elem_of_In, in_map_iff in Hx. destruct Hx as (px & <- & Hpx).
  apply list_elem_of_In in Hpx.
  assert (Hpy : (y, score y) ∈ skipn n (sort_desc snd scored)).
  { assert (Hin : (y, score y) ∈ sort_desc snd scored).
    { rewrite sort_desc_perm. subst scored. apply list_elem_of_In, in_map_iff.
      exists y. split; [done | by apply list_elem_of_In]. }
    rewrite <- (firstn_skipn n (sort_desc snd scored)) in Hin.
    apply elem_of_app in Hin as [Hin|Hin]; [|done].
    exfalso. apply Hny. apply list_elem_of_In, in_map_iff.
    exists (y, score y). split; [done | by apply list_elem_of_In]. }
  pose proof (descending_cut snd _ (sort_desc_descending snd scored) n px (y, score y)
                Hpx Hpy) as Hle.
  simpl in Hle. rewrite (Hscored px) in Hle; [done|].
  by apply (subseteq_take n (sort_desc snd scored)).
Qed.

End TextUtilsFacts.

(** C7, as stated, fails on a short text with irregular spacing: the two
    sentences come back joined by one blank, not the text as it was. *)
Lemma generate_summary_changes_short_text :
  TextUtils.extract_sentences "Hello.  World." = ["Hello."; "World."]
  ∧ TextUtils.generate_summary "Hello.  World." 3 = "Hello. World."
  ∧ TextUtils.generate_summary "Hello.  World." 3 ≠ "Hello.  World.".
Proof.
  split; [|split].
  - vm_compute. reflexivity.
  - vm_compute. reflexivity.
  - vm_compute. discriminate.
Qed.

(** C7, amended.  When the text has at most [max_sentences] sentences,
    [generate_summary] returns its sentences, each stripped, joined by single
    blanks.  When it has more, the summary is made of sentences of the text
    in their original order: exactly those that are among the first
    [max_sentences] entries of the sentences ranked by score, the score of a
    sentence being the number of the (at most 20) extracted keywords that
    occur in it divided by its number of words; no dropped sentence scores
    higher than a kept one. *)
Theorem generate_summary_sentences (s : string) (max_sentences : Z) :
  let sentences := TextUtils.extract_sentences s in
  let top := TextUtils.top_sentences s sentences max_sentences in
  let score := TextUtils.sentence_score (TextUtils.extract_keywords s 20 3) in
  ((Z.of_nat (length sentences) <= max_sentences)%Z →
   TextUtils.generate_summary s max_sentences = join " " sentences)
  ∧ ((max_sentences < Z.of_nat (length sentences))%Z →
     ∃ kept : list string,
       TextUtils.generate_summary s max_sentences = join " " kept
       ∧ sublist kept sentences
       ∧ (∀ x, x ∈ kept ↔ x ∈ sentences ∧ x ∈ top)
       ∧ (∀ x y, x ∈ kept → y ∈ sentences → y ∉ kept → (score y <= score x)%Q)
       ∧ ((0 <= max_sentences)%Z → length top = Z.to_nat max_sentences)
       ∧ length (TextUtils.extract_keywords s 20 3) <= 20).
Proof.
  intros sentences top score. split.
  - intros Hshort. unfold TextUtils.generate_summary. fold sentences.
    destruct (negb (TextUtils.nonempty s)) eqn:Es.
    + subst sentences. unfold TextUtils.extract_sentences. by rewrite Es.
    + destruct sentences as [|x xs] eqn:E; [done|].
      destruct (Z.leb_spec (Z.of_nat (length (x :: xs))) max_sentences); [done | lia].
  - intros Hlong.
    exists (List.filter (fun x => TextUtils.mem x top) sentences).
    assert (Hmem : ∀ x, x ∈ List.filter (fun x => TextUtils.mem x top) sentences
                        ↔ x ∈ sentences ∧ x ∈ top).
    { intros x. rewrite list_elem_of_In, filter_In, mem_elem_of, <- list_elem_of_In. done. }
    split; [|split; [|split; [|split; [|split]]]].
    + unfold TextUtils.generate_summary. fold sentences.
      destruct (negb (TextUtils.nonempty s)) eqn:Es.
      * assert (sentences = []) as ->; [|done].
        subst sentences. unfold TextUtils.extract_sentences. by rewrite Es.
      * destruct sentences as [|x xs] eqn:E; [done|].
        destruct (Z.leb_spec (Z.of_nat (length (x :: xs))) max_sentences); [lia | done].
    + apply filter_sublist.
    + exact Hmem.
    + intros x y Hx Hy Hny. apply Hmem in Hx as [_ Hx].
      apply (top_sentences_best s sentences max_sentences x y Hx Hy).
      intros Hytop. apply Hny, Hmem. done.
    + intros Hk. subst top. unfold TextUtils.top_sentences, slice_to.
      destruct (Z.leb_spec 0 max_sentences); [|lia].
      rewrite length_map, length_firstn.
      rewrite (Permutation_length (sort_desc_perm snd _)), length_map. lia.
    + unfold TextUtils.extract_keywords.
      destruct (negb (TextUtils.nonempty s)); simpl; [lia|].
      rewrite length_map. unfold slice_to. simpl.
      apply firstn_le_length.
Qed.

Lemma generate_summary_sentences_witness :
  TextUtils.generate_summary "Hello.  World." 3
  = join " " (TextUtils.extract_sentences "Hello.  World.")
  ∧ ∃ kept : list string,
      TextUtils.generate_summary harbour_report 2 = join " " kept
      ∧ sublist kept (TextUtils.extract_sentences harbour_report)
      ∧ (∀ x, x ∈ kept ↔
              x ∈ TextUtils.extract_sentences harbour_report
              ∧ x ∈ TextUtils.top_sentences harbour_report
                      (TextUtils.extract_sentences harbour_report) 2)
      ∧ (∀ x y, x ∈ kept → y ∈ TextUtils.extract_sentences harbour_report → y ∉ kept →
                (TextUtils.sentence_score (TextUtils.extract_keywords harbour_report 20 3) y
                 <= TextUtils.sentence_score
                      (TextUtils.extract_keywords harbour_report 20 3) x)%Q)
      ∧ ((0 <= 2)%Z →
         length (TextUtils.top_sentences harbour_report
                   (TextUtils.extract_sentences harbour_report) 2) = Z.to_nat 2)
      ∧ length (TextUtils.extract_keywords harbour_report 20 3) <= 20.
Proof.
  split.
  - apply (proj1 (generate_summary_sentences "Hello.  World." 3)).
    vm_compute. discriminate.
  - apply (proj2 (generate_summary_sentences harbour_report 2)).
    vm_compute. reflexivity.
Defined.

(** ** Sentiment: the thresholds of the rule-based analyzer *)



(** ** Rate limiter: the boundary at [rate_limit] and what a rejection records *)

Section RateLimitFacts.
Import RateLimit.

Lemma Qltb_lt (x y : Q) : Qltb x y = true ↔ (x < y)%Q.
Proof.
  unfold Qltb. rewrite negb_true_iff. split.
  - intros H. apply Qnot_le_lt. intros Hle. apply Qle_bool_iff in Hle. congruence.
  - intros H. destruct (Qle_bool y x) eqn:E; [|done].
    apply Qle_bool_iff in E. exfalso. apply (Qlt_not_le _ _ H E).
Qed.

Lemma filter_all (A : Type) (f : A → bool) (l : list A) :
  (∀ x, x ∈ l → f x = true) → List.filter f l = l.
Proof.
  induction l as [|x l IH]; intros H; simpl; [done|].
  rewrite (H x) by constructor. f_equal. apply IH. intros y Hy. apply H. by constructor.
Qed.

Lemma filter_none (A : Type) (f : A → bool) (l : list A) :
  (∀ x, x ∈ l → f x = false) → List.filter f l = [].
Proof.
  induction l as [|x l IH]; intros H; simpl; [done|].
  rewrite (H x) by constructor. apply IH. intros y Hy. apply H. by constructor.
Qed.

Lemma stored_set_requests self ip l :
  stored (set_requests self (<[ip := l]> (requests self))) ip = l.
Proof. unfold stored. simpl. by rewrite lookup_insert_eq. Qed.

(** A call that finds fewer than [rate_limit] live timestamps accepts and
    appends the current time. *)
Lemma is_rate_limited_accept self ip t :
  (Z.of_nat (length (List.filter (within_window self t) (stored self ip))) < rate_limit self)%Z →
  is_rate_limited self ip t =
    (set_requests self
       (<[ip := List.filter (within_window self t) (stored self ip) ++ [t]]> (requests self)),
     inr (false, None)).
Proof.
  intros H. unfold is_rate_limited. fold (stored self ip).
  destruct (Z.leb_spec (rate_limit self)
              (Z.of_nat (length (List.filter (within_window self t) (stored self ip)))));
    [lia | done].
Qed.

(** A call that finds [rate_limit] or more live timestamps (and at least
    one) rejects, with a retry delay of at least one second. *)
Lemma is_rate_limited_reject self ip t :
  (rate_limit self <= Z.of_nat (length (List.filter (within_window self t) (stored self ip))))%Z →
  List.filter (within_window self t) (stored self ip) ≠ [] →
  ∃ ra, is_rate_limited self ip t =
          (set_requests self
             (<[ip := List.filter (within_window self t) (stored self ip)]> (requests self)),
           inr (true, Some ra)) ∧ (1 <= ra)%Z.
Proof.
  intros H Hne. unfold is_rate_limited. fold (stored self ip).
  destruct (Z.leb_spec (rate_limit self)
              (Z.of_nat (length (List.filter (within_window self t) (stored self ip)))));
    [|lia].
  destruct (List.filter (within_window self t) (stored self ip)) as [|o os] eqn:E; [done|].
  simpl. eexists. split; [reflexivity | lia].
Qed.

(** While the quota is not exhausted and every recorded timestamp stays
    inside the window, each call of a run is accepted and recorded. *)
Lemma calls_accepted (times : list Q) : ∀ self ip,
  (Z.of_nat (length (stored self ip) + length times) <= rate_limit self)%Z →
  all_within (inject_Z (time_window self)) (stored self ip ++ times) →
  let '(self', rs) := calls self ip times in
  rs = repeat (inr (false, None)) (length times)
  ∧ stored self' ip = stored self ip ++ times
  ∧ rate_limit self' = rate_limit self
  ∧ time_window self' = time_window self.
Proof.
  induction times as [|t ts IH]; intros self ip Hlen Hwin; simpl.
  - by rewrite app_nil_r.
  - assert (Hkeep : List.filter (within_window self t) (stored self ip) = stored self ip).
    { apply filter_all. intros o Ho. apply Qltb_lt. apply Hwin.
      - apply elem_of_app. by left.
      - apply elem_of_app. right. constructor. }
    rewrite is_rate_limited_accept; rewrite Hkeep; [|simpl in Hlen; lia].
    set (self1 := set_requests self _).
    specialize (IH self1 ip).
    assert (Hs1 : stored self1 ip = stored self ip ++ [t])
      by apply stored_set_requests.
    rewrite Hs1 in IH. rewrite <- app_assoc in IH. simpl in IH.
    destruct (calls self1 ip ts) as [self' rs].
    destruct IH as (Hrs & Hst & Hrl & Htw).
    + rewrite length_app. simpl in *. lia.
    + exact Hwin.
    + subst rs. repeat split; done.
Qed.

End RateLimitFacts.

(** C9.  With [rate_limit = 100] and [time_window = 60], for a client none of
    whose earlier timestamps is still inside the window: 100 calls whose
    timestamps, together with that of the 101st, all lie within one window
    of 60 seconds are each answered "not limited", and the 101st call is
    answered "limited" with a retry delay of at least 1. *)
Theorem rate_limiter_boundary (self : RateLimit.RateLimiter) (ip : string)
    (times : list Q) (t101 : Q) :
  RateLimit.rate_limit self = 100%Z →
  RateLimit.time_window self = 60%Z →
  length times = 100 →
  (∀ o t, o ∈ stored self ip → head times = Some t →
          RateLimit.within_window self t o = false) →
  all_within 60%Q (times ++ [t101]) →
  let '(self', rs) := RateLimit.calls self ip times in
  rs = repeat (inr (false, None)) 100
  ∧ ∃ ra, snd (RateLimit.is_rate_limited self' ip t101) = inr (true, Some ra)
          ∧ (1 <= ra)%Z.
Proof.
  intros Hrl Htw Hlen Hold Hwin.
  destruct times as [|t1 ts]; [done|]. simpl in Hlen.
  cbn [RateLimit.calls].
  assert (Hdrop : List.filter (RateLimit.within_window self t1) (stored self ip) = []).
  { apply filter_none. intros o Ho. by apply Hold. }
  rewrite is_rate_limited_accept; rewrite Hdrop; [|simpl; lia]. simpl app.
  set (self1 := RateLimit.set_requests self _).
  assert (Hs1 : stored self1 ip = [t1]) by apply stored_set_requests.
  pose proof (calls_accepted ts self1 ip) as Hrun.
  rewrite Hs1 in Hrun. simpl in Hrun.
  destruct (RateLimit.calls self1 ip ts) as [self' rs].
  destruct Hrun as (Hrs & Hst & Hrl' & Htw').
  - subst self1. simpl. lia.
  - subst self1. cbn [RateLimit.set_requests RateLimit.time_window]. rewrite Htw.
    intros a b Ha Hb. apply Hwin; apply elem_of_app; by left.
  - split.
    + subst rs. replace 100 with (S (length ts)) by lia. done.
    + assert (Hkeep : List.filter (RateLimit.within_window self' t101) (stored self' ip)
                      = t1 :: ts).
      { rewrite Hst. apply filter_all. intros o Ho. apply Qltb_lt.
        rewrite Htw'. subst self1. cbn [RateLimit.set_requests RateLimit.time_window].
        rewrite Htw. apply Hwin.
        - apply elem_of_app. by left.
        - apply elem_of_app. right. constructor. }
      destruct (is_rate_limited_reject self' ip t101) as (ra & Hcall & Hra).
      * rewrite Hkeep, Hrl'. subst self1. simpl. lia.
      * by rewrite Hkeep.
      * exists ra. by rewrite Hcall.
Qed.

(** A fresh limiter, one hundred requests in the same instant, then one more. *)
Lemma rate_limiter_boundary_witness :
  let '(self', rs) :=
    RateLimit.calls (RateLimit.init 100 60) "10.0.0.7" (repeat 0%Q 100) in
  rs = repeat (inr (false, None)) 100
  ∧ ∃ ra, snd (RateLimit.is_rate_limited self' "10.0.0.7" 0%Q) = inr (true, Some ra)
          ∧ (1 <= ra)%Z.
Proof.
  apply (rate_limiter_boundary (RateLimit.init 100 60) "10.0.0.7" (repeat 0%Q 100) 0).
  - reflexivity.
  - reflexivity.
  - apply repeat_length.
  - intros o t Ho _. unfold stored in Ho. simpl in Ho. rewrite lookup_empty in Ho.
    by apply elem_of_nil in Ho.
  - intros a b Ha Hb.
    assert (Hz : ∀ x, x ∈ repeat 0%Q 100 ++ [0%Q] → x = 0%Q).
    { intros x Hx. apply elem_of_app in Hx as [Hx|Hx].
      - apply list_elem_of_In in Hx. by apply repeat_spec in Hx.
      - by apply list_elem_of_singleton in Hx. }
    rewrite (Hz a Ha), (Hz b Hb). reflexivity.
Defined.

(** C10.  A call answered "limited" leaves for that client exactly the old
    timestamps that are still inside the window: nothing is appended, the
    list does not grow, and other clients are untouched.  Only a call
    answered "not limited" appends the current time. *)
Theorem rejected_request_not_recorded (self : RateLimit.RateLimiter) (ip : string) (t : Q) :
  let kept := List.filter (RateLimit.within_window self t) (stored self ip) in
  let '(self', r) := RateLimit.is_rate_limited self ip t in
  (∀ ra, r = inr (true, ra) →
         stored self' ip = kept ∧ length (stored self' ip) <= length (stored self ip))
  ∧ (∀ ra, r = inr (false, ra) → stored self' ip = kept ++ [t])
  ∧ (∀ ip', ip' ≠ ip →
            RateLimit.requests self' !! ip' = RateLimit.requests self !! ip')
  ∧ RateLimit.rate_limit self' = RateLimit.rate_limit self
  ∧ RateLimit.time_window self' = RateLimit.time_window self.
Proof.
  intros kept. unfold RateLimit.is_rate_limited. fold (stored self ip). fold kept.
  destruct (RateLimit.rate_limit self <=? Z.of_nat (length kept))%Z eqn:E.
  - split; [|split; [|split; [|split]]]; try done.
    + intros ra _. rewrite stored_set_requests. split; [done|].
      subst kept. apply List.filter_length_le.
    + intros ra Hr.
      destruct (RateLimit.py_min kept); unfold bind, ret in Hr; simpl in Hr; congruence.
    + intros ip' Hne. simpl. by rewrite lookup_insert_ne.
  - split; [|split; [|split; [|split]]]; try done.
    + intros ra _. apply stored_set_requests.
    + intros ip' Hne. simpl. by rewrite lookup_insert_ne.
Qed.

(** ** Rate limiter: quota, retry delay, purge *)

Section RateLimitMore.
Import RateLimit.

Lemma Qltb_ge (x y : Q) : (y <= x)%Q → Qltb x y = false.
Proof. intros H. unfold Qltb. by apply negb_false_iff, Qle_bool_iff. Qed.

Lemma filter_filter_weaker {A} (f g : A → bool) (l : list A) :
  (∀ x, f x = true → g x = true) → List.filter f (List.filter g l) = List.filter f l.
Proof.
  intros Hfg. induction l as [|x l IH]; simpl; [done|].
  destruct (g x) eqn:Eg; simpl.
  - destruct (f x); by rewrite IH.
  - destruct (f x) eqn:Ef; [|done]. apply Hfg in Ef. congruence.
Qed.

Lemma filter_drops_one {A} (f : A → bool) (l : list A) (x : A) :
  x ∈ l → f x = false → length (List.filter f l) < length l.
Proof.
  induction l as [|y l IH]; intros Hin Hx; [by apply elem_of_nil in Hin|].
  apply elem_of_cons in Hin as [<-|Hin]; simpl.
  - rewrite Hx. pose proof (List.filter_length_le f l). lia.
  - specialize (IH Hin Hx). destruct (f y); simpl; lia.
Qed.

(** [min] answers with an element of the list. *)
Lemma py_min_elem (l : list Q) (m : Q) : py_min l = inr m → m ∈ l.
Proof.
  destruct l as [|t ts]; [discriminate|]. simpl. intros [= <-].
  assert (H : ∀ ts t0, fold_left (fun m x => if Qltb x m then x else m) ts t0 ∈ t0 :: ts).
  { clear. induction ts as [|x ts IH]; intros t0; simpl; [by constructor|].
    destruct (Qltb x t0).
    - specialize (IH x). apply elem_of_cons in IH as [->|IH].
      + constructor. by constructor.
      + constructor. by constructor.
    - specialize (IH t0). apply elem_of_cons in IH as [->|IH].
      + by constructor.
      + constructor. by constructor. }
  apply H.
Qed.

Lemma Qtrunc_le (x : Q) (n : Z) : (x <= inject_Z n)%Q → (Qtrunc x <= n)%Z.
Proof.
  intros H. unfold Qtrunc. destruct (Qle_bool 0 x) eqn:E.
  - rewrite <- (Qfloor_Z n). by apply Qfloor_resp_le.
  - rewrite <- (Qceiling_Z n). by apply Qceiling_resp_le.
Qed.

Lemma Qtrunc_gt (x : Q) : (x < inject_Z (Qtrunc x + 1))%Q.
Proof.
  unfold Qtrunc. destruct (Qle_bool 0 x) eqn:E.
  - apply Qlt_floor.
  - eapply Qle_lt_trans; [apply Qle_ceiling|].
    rewrite <- Zlt_Qlt. lia.
Qed.

(** One call keeps a client's list within the quota. *)
Lemma is_rate_limited_quota self ip t ip' :
  (Z.of_nat (length (stored self ip')) <= Z.max 0 (rate_limit self))%Z →
  (Z.of_nat (length (stored (fst (is_rate_limited self ip t)) ip'))
   <= Z.max 0 (rate_limit self))%Z.
Proof.
  intros H. unfold is_rate_limited. fold (stored self ip).
  pose proof (List.filter_length_le (within_window self t) (stored self ip)) as Hle.
  destruct (Z.leb_spec (rate_limit self)
              (Z.of_nat (length (List.filter (within_window self t) (stored self ip)))));
    cbn [fst]; destruct (decide (ip' = ip)) as [->|Hne].
  - rewrite stored_set_requests. lia.
  - unfold stored in *. simpl. by rewrite lookup_insert_ne.
  - rewrite stored_set_requests, length_app. simpl. lia.
  - unfold stored in *. simpl. by rewrite lookup_insert_ne.
Qed.

Lemma is_rate_limited_settings self ip t :
  rate_limit (fst (is_rate_limited self ip t)) = rate_limit self
  ∧ time_window (fst (is_rate_limited self ip t)) = time_window self.
Proof.
  unfold is_rate_limited.
  by destruct (rate_limit self <=? _)%Z.
Qed.

Lemma serve_quota (events : list (string * Q)) : ∀ self,
  (∀ ip, (Z.of_nat (length (stored self ip)) <= Z.max 0 (rate_limit self))%Z) →
  ∀ ip, (Z.of_nat (length (stored (serve self events) ip)) <= Z.max 0 (rate_limit self))%Z.
Proof.
  induction events as [|[ip0 t] rest IH]; intros self H ip; simpl; [done|].
  destruct (is_rate_limited_settings self ip0 t) as [Hrl _].
  rewrite <- Hrl. apply IH. intros ip'. rewrite Hrl. by apply is_rate_limited_quota.
Qed.

(** The purge keeps, for each client, the timestamps still inside the
    window. *)
Lemma stored_cleanup self c ip :
  stored (cleanup_old_requests self c) ip
  = List.filter (within_window self c) (stored self ip).
Proof.
  unfold stored, cleanup_old_requests. cbn [requests set_requests].
  match goal with
  | |- context [map_filter ?P ?d ?m !! ip] =>
      replace (map_filter P d m !! ip)
        with (x ← m !! ip; guard (P (ip, x));; Some x)
        by (symmetry; apply (map_lookup_filter P (H7 := d) m ip))
  end.
  rewrite lookup_fmap.
  destruct (requests self !! ip) as [l|]; simpl; [|done].
  destruct (List.filter (within_window self c) l) as [|o os];
    case_guard as Hg; simpl in *; done.
Qed.

End RateLimitMore.

(** X1.  Starting from a fresh limiter, whatever requests arrive, from
    whatever clients and at whatever times, no client ever has more than
    [rate_limit] timestamps on record. *)
Theorem rate_limiter_quota_kept (rate_limit time_window : Z)
    (events : list (string * Q)) (ip : string) :
  (Z.of_nat (length (stored (RateLimit.serve (RateLimit.init rate_limit time_window) events) ip))
   <= Z.max 0 rate_limit)%Z.
Proof.
  apply (serve_quota events (RateLimit.init rate_limit time_window)).
  intros ip'. unfold stored. simpl. rewrite lookup_empty. simpl. lia.
Qed.

(** X2.  When no recorded timestamp lies in the future, the retry delay of
    a rejection is at least one second and at most the length of the
    window (or one second, for a shorter window). *)
Theorem retry_after_bounds (self self' : RateLimit.RateLimiter) (ip : string)
    (t : Q) (ra : Z) :
  RateLimit.is_rate_limited self ip t = (self', inr (true, Some ra)) →
  (∀ o, o ∈ stored self ip → (o <= t)%Q) →
  (1 <= ra <= Z.max 1 (RateLimit.time_window self))%Z.
Proof.
  intros Hcall Hpast. unfold RateLimit.is_rate_limited in Hcall.
  fold (stored self ip) in Hcall.
  destruct (RateLimit.rate_limit self <=? _)%Z; [|discriminate].
  injection Hcall as _ Hres.
  destruct (RateLimit.py_min _) as [e|oldest] eqn:Emin; cbn [bind ret] in Hres;
    [discriminate|].
  injection Hres as <-.
  apply py_min_elem in Emin.
  apply list_elem_of_In, filter_In in Emin as [Hin Hlive].
  apply list_elem_of_In, Hpast in Hin.
  split; [lia|].
  apply Z.max_le_compat_l, Qtrunc_le. lra.
Qed.

(** X3.  A client that was rejected with retry delay [ra], and whose list
    was within the quota, is accepted by its next call when that call comes
    [ra + 1] seconds later or more. *)
Theorem accepted_after_retry_delay (self self1 : RateLimit.RateLimiter) (ip : string)
    (t t' : Q) (ra : Z) :
  RateLimit.is_rate_limited self ip t = (self1, inr (true, Some ra)) →
  (Z.of_nat (length (stored self ip)) <= RateLimit.rate_limit self)%Z →
  (t + inject_Z ra + 1 <= t')%Q →
  snd (RateLimit.is_rate_limited self1 ip t') = inr (false, None).
Proof.
  intros Hcall Hquota Hlater.
  pose proof (is_rate_limited_settings self ip t) as [Hrl Htw].
  rewrite Hcall in Hrl, Htw. cbn [fst] in Hrl, Htw.
  unfold RateLimit.is_rate_limited in Hcall. fold (stored self ip) in Hcall.
  set (kept := List.filter (RateLimit.within_window self t) (stored self ip)) in *.
  destruct (RateLimit.rate_limit self <=? _)%Z; [|discriminate].
  injection Hcall as Hself1 Hres.
  destruct (RateLimit.py_min kept) as [e|oldest] eqn:Emin; cbn [bind ret] in Hres;
    [discriminate|].
  injection Hres as Hra.
  apply py_min_elem in Emin.
  assert (Hst : stored self1 ip = kept) by (subst self1; apply stored_set_requests).
  assert (Hexp : RateLimit.within_window self1 t' oldest = false).
  { unfold RateLimit.within_window. rewrite Htw. apply Qltb_ge.
    pose proof (Qtrunc_gt (inject_Z (RateLimit.time_window self) - (t - oldest))) as Hgt.
    assert (Hge : (inject_Z (Qtrunc (inject_Z (RateLimit.time_window self) - (t - oldest)) + 1)
                   <= inject_Z ra + 1)%Q).
    { rewrite inject_Z_plus. apply Qplus_le_l. rewrite <- Zle_Qle. lia. }
    lra. }
  rewrite is_rate_limited_accept; [done|].
  rewrite Hst, Hrl.
  pose proof (filter_drops_one (RateLimit.within_window self1 t') kept oldest Emin Hexp).
  pose proof (List.filter_length_le (RateLimit.within_window self t) (stored self ip)).
  fold kept in H0. lia.
Qed.

(** X4.  A purge at an earlier time is invisible to the next call of any
    client: the answer and the client's recorded timestamps are the same
    with and without it. *)
Theorem cleanup_is_transparent (self : RateLimit.RateLimiter) (ip : string) (c t : Q) :
  (c <= t)%Q →
  snd (RateLimit.is_rate_limited (RateLimit.cleanup_old_requests self c) ip t)
  = snd (RateLimit.is_rate_limited self ip t)
  ∧ stored (fst (RateLimit.is_rate_limited (RateLimit.cleanup_old_requests self c) ip t)) ip
    = stored (fst (RateLimit.is_rate_limited self ip t)) ip.
Proof.
  intros Hct.
  assert (Hkept :
    List.filter (RateLimit.within_window (RateLimit.cleanup_old_requests self c) t)
      (stored (RateLimit.cleanup_old_requests self c) ip)
    = List.filter (RateLimit.within_window self t) (stored self ip)).
  { rewrite stored_cleanup. apply filter_filter_weaker.
    intros o Ho. apply Qltb_lt. apply Qltb_lt in Ho. lra. }
  unfold RateLimit.is_rate_limited at 1 3.
  fold (stored (RateLimit.cleanup_old_requests self c) ip). rewrite Hkept.
  unfold RateLimit.is_rate_limited. fold (stored self ip).
  change (RateLimit.rate_limit (RateLimit.cleanup_old_requests self c))
    with (RateLimit.rate_limit self).
  change (RateLimit.time_window (RateLimit.cleanup_old_requests self c))
    with (RateLimit.time_window self).
  destruct (RateLimit.rate_limit self <=? _)%Z; cbn [fst snd];
    rewrite !stored_set_requests; done.
Qed.

(** X5.  With a quota of zero or less, a call from a client without a
    timestamp inside the window does not answer at all: it raises
    [ValueError], and so does the middleware. *)
Theorem zero_quota_raises (self : RateLimit.RateLimiter) (ip : string) (t : Q) :
  (RateLimit.rate_limit self <= 0)%Z →
  List.filter (RateLimit.within_window self t) (stored self ip) = [] →
  snd (RateLimit.is_rate_limited self ip t) = inl ValueError
  ∧ ∀ exclude path,
      path ∉ exclude →
      snd (RateLimit.call (RateLimit.mkMiddleware self exclude)
             (RateLimit.mkRequest path (Some ip)) t)
      = RateLimit.Raised ValueError.
Proof.
  intros Hrl Hnone.
  assert (Hcall : snd (RateLimit.is_rate_limited self ip t) = inl ValueError).
  { unfold RateLimit.is_rate_limited. fold (stored self ip). rewrite Hnone.
    change (Z.of_nat (length (@nil Q))) with 0%Z.
    destruct (Z.leb_spec (RateLimit.rate_limit self) 0); [reflexivity | lia]. }
  split; [exact Hcall|].
  intros exclude path Hpath. unfold RateLimit.call. simpl.
  rewrite bool_decide_eq_false_2 by done.
  destruct (RateLimit.is_rate_limited self ip t) as [s r]. simpl in Hcall. by subst r.
Qed.

Lemma retry_after_bounds_witness : (1 <= 50 <= Z.max 1 60)%Z.
Proof.
  apply (retry_after_bounds busy_limiter
           (fst (RateLimit.is_rate_limited busy_limiter "203.0.113.9" 10))
           "203.0.113.9" 10 50).
  - vm_compute. reflexivity.
  - intros o Ho. change (o ∈ [0%Q; 1%Q]) in Ho.
    apply elem_of_cons in Ho as [->|Ho]; [done|].
    apply list_elem_of_singleton in Ho as ->. done.
Defined.

Lemma accepted_after_retry_delay_witness :
  snd (RateLimit.is_rate_limited
         (fst (RateLimit.is_rate_limited busy_limiter "203.0.113.9" 10))
         "203.0.113.9" 61)
  = inr (false, None).
Proof.
  apply (accepted_after_retry_delay busy_limiter
           (fst (RateLimit.is_rate_limited busy_limiter "203.0.113.9" 10))
           "203.0.113.9" 10 61 50).
  - vm_compute. reflexivity.
  - vm_compute. discriminate.
  - vm_compute. discriminate.
Defined.

Lemma cleanup_is_transparent_witness :
  snd (RateLimit.is_rate_limited (RateLimit.cleanup_old_requests busy_limiter 30)
         "203.0.113.9" 60)
  = snd (RateLimit.is_rate_limited busy_limiter "203.0.113.9" 60)
  ∧ stored (fst (RateLimit.is_rate_limited (RateLimit.cleanup_old_requests busy_limiter 30)
                   "203.0.113.9" 60)) "203.0.113.9"
    = stored (fst (RateLimit.is_rate_limited busy_limiter "203.0.113.9" 60)) "203.0.113.9".
Proof.
  apply (cleanup_is_transparent busy_limiter "203.0.113.9" 30 60).
  vm_compute. discriminate.
Defined.

Lemma zero_quota_raises_witness :
  snd (RateLimit.is_rate_limited (RateLimit.init 0 60) "203.0.113.9" 5) = inl ValueError
  ∧ ∀ exclude path,
      path ∉ exclude →
      snd (RateLimit.call (RateLimit.mkMiddleware (RateLimit.init 0 60) exclude)
             (RateLimit.mkRequest path (Some "203.0.113.9")) 5)
      = RateLimit.Raised ValueError.
Proof.
  apply (zero_quota_raises (RateLimit.init 0 60) "203.0.113.9" 5).
  - simpl. lia.
  - reflexivity.
Defined.

(** ** API source: paths, page arithmetic, the fetch loop *)

Section ApiSourceMore.
Import ApiSource.

Lemma chars_app (p q : string) : chars (p ++ q) = chars p ++ chars q.
Proof. unfold chars. induction p as [|c p IH]; simpl; [done|]. by rewrite IH. Qed.

Lemma split_on_aux_app (sep : ascii) (l1 l2 cur : list ascii) :
  split_on_aux sep cur (l1 ++ sep :: l2)
  = split_on_aux sep cur l1 ++ split_on_aux sep [] l2.
Proof.
  revert cur. induction l1 as [|c l1 IH]; intros cur; simpl.
  - by rewrite Ascii.eqb_refl.
  - destruct (Ascii.eqb c sep); simpl; by rewrite IH.
Qed.

(** Splitting a dotted path splits its two halves. *)
Lemma split_on_dot (p q : string) :
  split_on "." (p ++ "." ++ q) = split_on "." p ++ split_on "." q.
Proof.
  unfold split_on. rewrite !chars_app. change (chars ".") with ["."%char].
  apply split_on_aux_app.
Qed.

Lemma walk_app (keys1 keys2 : list string) : ∀ v,
  walk v (keys1 ++ keys2)
  = bind (walk v keys1)
      (fun r => match r with Some v' => walk v' keys2 | None => ret None end).
Proof.
  induction keys1 as [|k keys1 IH]; intros v; simpl; [done|].
  destruct (path_step v k) as [e|[v'|]]; simpl; [done | apply IH | done].
Qed.

(** Nothing can be read below [None]. *)
Lemma walk_none (key : string) (keys : list string) :
  walk PNone (key :: keys) = inr None ∨ ∃ e, walk PNone (key :: keys) = inl e.
Proof.
  simpl. unfold path_step. destruct (isdigit key).
  - destruct (int_of_digits key); simpl; eauto.
  - simpl. eauto.
Qed.

Lemma split_on_aux_cons (sep : ascii) (l cur : list ascii) :
  ∃ key keys, split_on_aux sep cur l = key :: keys.
Proof.
  revert cur. induction l as [|c l IH]; intros cur; simpl; [eauto|].
  destruct (Ascii.eqb c sep); eauto.
Qed.

Lemma string_nonempty_truthy (s : string) : s ≠ "" → truthy (PStr s) = true.
Proof. intros H. simpl. by apply negb_true_iff, String.eqb_neq. Qed.

Lemma app_nonempty (p q : string) : p ≠ "" → (p ++ q)%string ≠ "".
Proof. by destruct p. Qed.

Lemma split_on_aux_no_sep (sep : ascii) (l cur : list ascii) :
  forallb (fun c => negb (Ascii.eqb c sep)) l = true →
  split_on_aux sep cur l = [text (rev cur ++ l)].
Proof.
  revert cur. induction l as [|c l IH]; intros cur H; simpl.
  - by rewrite app_nil_r.
  - simpl in H. apply andb_true_iff in H as [Hc Hl].
    apply negb_true_iff in Hc. rewrite Hc, IH by done.
    simpl. by rewrite <- app_assoc.
Qed.

Lemma text_chars (s : string) : text (chars s) = s.
Proof. apply string_of_list_ascii_of_string. Qed.

(** A key made of digits has no dot: it is a path of one segment. *)
Lemma split_on_digits (key : string) : isdigit key = true → split_on "." key = [key].
Proof.
  unfold isdigit. intros H. apply andb_true_iff in H as [_ H].
  unfold split_on. rewrite split_on_aux_no_sep; [simpl; by rewrite text_chars|].
  rewrite forallb_forall in H |- *. intros c Hc. specialize (H c Hc).
  destruct (Ascii.eqb_spec c ".") as [->|]; [discriminate | done].
Qed.

(** Fuel beyond the number of pages left changes nothing. *)
Lemma fetch_loop_fuel {A} (fetch_page : Z → list A * bool) (self : APISource)
    (fuel : nat) : ∀ extra current_page articles pages,
  (max_pages self - current_page + 1 <= Z.of_nat fuel)%Z →
  fetch_loop fetch_page (fuel + extra) self current_page articles pages
  = fetch_loop fetch_page fuel self current_page articles pages.
Proof.
  induction fuel as [|fuel IH]; intros extra current_page articles pages Hfuel.
  - simpl. destruct extra; simpl;
      destruct (Z.ltb_spec (max_pages self) current_page); try done; lia.
  - simpl. destruct (max_pages self <? current_page)%Z; [done|].
    destruct (fetch_page current_page) as [page_articles has_more].
    destruct (negb has_more || negb (truthy (page_param self))); [done|].
    apply IH. lia.
Qed.

(** What the loop adds to the pages and articles it starts with. *)
Lemma fetch_loop_pages {A} (fetch_page : Z → list A * bool) (self : APISource)
    (fuel : nat) : ∀ current_page articles pages,
  ∃ n,
    fetch_loop fetch_page fuel self current_page articles pages
    = (articles ++ flat_map (fun p => fst (fetch_page p)) (page_numbers current_page n),
       pages ++ page_numbers current_page n)
    ∧ (Z.of_nat n <= Z.max 0 (max_pages self - current_page + 1))%Z
    ∧ (truthy (page_param self) = false → n <= 1)
    ∧ (∀ p, p ∈ removelast (page_numbers current_page n) → snd (fetch_page p) = true).
Proof.
  induction fuel as [|fuel IH]; intros current_page articles pages; simpl.
  - exists 0. simpl. rewrite !app_nil_r.
    destruct (max_pages self <? current_page)%Z; repeat split; try done; try lia.
    all: intros p Hp; by apply elem_of_nil in Hp.
  - destruct (Z.ltb_spec (max_pages self) current_page).
    + exists 0. simpl. rewrite !app_nil_r. repeat split; try done; try lia.
      intros p Hp; by apply elem_of_nil in Hp.
    + destruct (fetch_page current_page) as [page_articles has_more] eqn:Epage.
      destruct (negb has_more || negb (truthy (page_param self))) eqn:Estop.
      * exists 1. simpl. rewrite Epage. simpl. rewrite app_nil_r.
        repeat split; try done; try lia.
        intros p Hp; by apply elem_of_nil in Hp.
      * apply orb_false_iff in Estop as [Hmore Hparam].
        apply negb_false_iff in Hmore, Hparam. subst has_more.
        destruct (IH (current_page + 1)%Z (articles ++ page_articles)
                    (pages ++ [current_page])) as (n & Hrun & Hn & Hone & Hbefore).
        exists (S n). rewrite Hrun. simpl. rewrite Epage. simpl.
        rewrite <- !app_assoc. simpl. repeat split; try done; try lia.
        -- intros Hfalse. congruence.
        -- intros p Hp. destruct (page_numbers (current_page + 1) n) eqn:En.
           ++ by apply elem_of_nil in Hp.
           ++ apply elem_of_cons in Hp as [->|Hp]; [by rewrite Epage|].
              by apply Hbefore.
Qed.

End ApiSourceMore.

(** X6.  A path splits at a dot: reading [p.q] in an item is reading [q] in
    what [p] reads, for any non-empty [p] and [q]. *)
Theorem extract_field_composes (item : pyval) (p q : string) :
  p ≠ "" → q ≠ "" →
  ApiSource.extract_field item (PStr (p ++ "." ++ q))
  = ApiSource.extract_field (ApiSource.extract_field item (PStr p)) (PStr q).
Proof.
  intros Hp Hq. unfold ApiSource.extract_field.
  rewrite !string_nonempty_truthy by (done || by apply app_nonempty).
  cbn [negb ApiSource.resolve]. rewrite split_on_dot, walk_app.
  destruct (ApiSource.walk item (split_on "." p)) as [e|[v|]] eqn:Ewalk; cbn [bind ret].
  - unfold split_on. destruct (split_on_aux_cons "." (chars q) []) as (k & ks & ->).
    destruct (walk_none k ks) as [->|[e' ->]]; done.
  - done.
  - unfold split_on. destruct (split_on_aux_cons "." (chars q) []) as (k & ks & ->).
    destruct (walk_none k ks) as [->|[e' ->]]; done.
Qed.

Lemma extract_field_composes_witness :
  ApiSource.extract_field one_page_response (PStr ("meta" ++ "." ++ "total"))
  = ApiSource.extract_field (ApiSource.extract_field one_page_response (PStr "meta"))
      (PStr "total").
Proof. apply (extract_field_composes one_page_response "meta" "total"); discriminate. Defined.

(** X7.  A path segment made of digits only never reads an entry of a JSON
    object, even when the object has that very key. *)
Theorem digit_key_misses_object (d : gmap string pyval) (key : string) :
  ApiSource.isdigit key = true →
  ApiSource.extract_field (PDict d) (PStr key) = PNone.
Proof.
  intros Hdigit. unfold ApiSource.extract_field, ApiSource.resolve.
  rewrite split_on_digits by done.
  destruct (truthy (PStr key)); cbn [negb]; [|done].
  cbn [ApiSource.walk]. unfold ApiSource.path_step. rewrite Hdigit.
  by destruct (ApiSource.int_of_digits key).
Qed.

Lemma digit_key_misses_object_witness :
  yearly_response !! "2024" = Some (PInt 7)
  ∧ ApiSource.extract_field (PDict yearly_response) (PStr "2024") = PNone.
Proof.
  split; [vm_compute; reflexivity|].
  apply (digit_key_misses_object yearly_response "2024"). reflexivity.
Defined.

(** X8.  For a full page and a [total_path] that resolves to an integer
    total, more pages are reported exactly when the pages fetched so far
    hold fewer items than the total. *)
Theorem has_more_pages_iff_items_left (self : ApiSource.APISource)
    (response_data : pyval) (current_page total : Z) (items_count : nat) :
  truthy (ApiSource.page_param self) = true →
  (1 <= ApiSource.page_size self <= Z.of_nat items_count)%Z →
  ApiSource.is_dict response_data = true →
  truthy (ApiSource.total_path self) = true →
  ApiSource.resolve response_data (ApiSource.total_path self) = inr (Some (PInt total)) →
  ApiSource.check_has_more_pages self response_data current_page items_count
  = (current_page * ApiSource.page_size self <? total)%Z.
Proof.
  intros Hparam Hsize Hdict Hpath Hres.
  unfold ApiSource.check_has_more_pages. rewrite Hparam. cbn [negb].
  destruct (Z.eqb_spec (Z.of_nat items_count) 0); [lia|].
  destruct (Z.ltb_spec (Z.of_nat items_count) (ApiSource.page_size self)); [lia|].
  rewrite Hpath, Hdict, Hres. cbn [andb bind ret ApiSource.total_pages].
  destruct (Z.eqb_spec (ApiSource.page_size self) 0); [lia|]. cbn [bind ret].
  set (ps := ApiSource.page_size self) in *.
  assert (Hdiv : (current_page < (total + ps - 1) / ps ↔ current_page * ps < total)%Z).
  { split; intros Hlt.
    - pose proof (Z.mul_div_le (total + ps - 1) ps ltac:(lia)) as Hmul. nia.
    - assert (Hle : (current_page + 1 <= (total + ps - 1) / ps)%Z)
        by (apply Z.div_le_lower_bound; nia).
      lia. }
  destruct (Z.ltb_spec (current_page * ps) total) as [Hlt|Hge].
  - apply Qltb_lt. rewrite <- Zlt_Qlt. by apply Hdiv.
  - apply Qltb_ge. rewrite <- Zle_Qle.
    destruct (Z.lt_ge_cases current_page ((total + ps - 1) / ps)) as [Hc|Hc]; [|done].
    apply Hdiv in Hc. lia.
Qed.

Lemma has_more_pages_iff_items_left_witness :
  ApiSource.check_has_more_pages paged_source one_page_response 1 10 = (1 * 10 <? 10)%Z.
Proof.
  apply (has_more_pages_iff_items_left paged_source one_page_response 1 10 10).
  - reflexivity.
  - simpl. lia.
  - reflexivity.
  - reflexivity.
  - vm_compute. reflexivity.
Defined.

(** X9.  [fetch] requests the pages 1, 2, ... in order and never more than
    [max_pages] of them; it requests a single page at most when no
    [page_param] is configured; it returns the articles of the requested
    pages in order; and every requested page but the last reported more
    pages.  Giving the loop more fuel changes nothing. *)
Theorem fetch_pages_bounded {A : Type} (fetch_page : Z → list A * bool)
    (self : ApiSource.APISource) :
  ∃ n,
    ApiSource.fetch fetch_page self
    = (flat_map (fun p => fst (fetch_page p)) (page_numbers 1 n), page_numbers 1 n)
    ∧ (Z.of_nat n <= Z.max 0 (ApiSource.max_pages self))%Z
    ∧ (truthy (ApiSource.page_param self) = false → n <= 1)
    ∧ (∀ p, p ∈ removelast (page_numbers 1 n) → snd (fetch_page p) = true)
    ∧ ∀ extra,
        ApiSource.fetch_loop fetch_page (Z.to_nat (ApiSource.max_pages self) + extra)
          self 1 [] []
        = ApiSource.fetch fetch_page self.
Proof.
  destruct (fetch_loop_pages fetch_page self (Z.to_nat (ApiSource.max_pages self)) 1 [] [])
    as (n & Hrun & Hn & Hone & Hbefore).
  exists n. unfold ApiSource.fetch. simpl in Hrun.
  split; [exact Hrun|]. split; [lia|]. split; [exact Hone|]. split; [exact Hbefore|].
  intros extra. apply fetch_loop_fuel. lia.
Qed.

(** ** Deduplication: range and symmetry of the similarity, soundness of
    the two strategies, the alphabet of cleaned text *)

Section DedupMore.
Import Dedup.

Lemma Qdiv_nat_range (i u : nat) :
  i <= u → u ≠ 0 →
  (0 <= inject_Z (Z.of_nat i) / inject_Z (Z.of_nat u))%Q
  ∧ (inject_Z (Z.of_nat i) / inject_Z (Z.of_nat u) <= 1)%Q.
Proof.
  intros Hle Hne.
  assert (Hu : (0 < inject_Z (Z.of_nat u))%Q) by (unfold Qlt; simpl; lia).
  split.
  - apply Qle_shift_div_l; [done|]. unfold Qle. simpl. lia.
  - apply Qle_shift_div_r; [done|]. unfold Qle. simpl. lia.
Qed.

(** The quotient of two counts, rounded, is still between 0 and 1. *)
Lemma int_div_range (i u : nat) :
  i <= u → u ≠ 0 →
  (0 <= int_div (Z.of_nat i) (Z.of_nat u))%Q ∧ (int_div (Z.of_nat i) (Z.of_nat u) <= 1)%Q.
Proof.
  intros Hle Hne. destruct (Qdiv_nat_range i u Hle Hne) as [H0 H1]. unfold int_div.
  split; [by apply fl_nonneg|]. rewrite <- fl_one. by apply fl_mono.
Qed.

(** The weighted sum of two similarities, rounded as the code computes
    it, is still between 0 and 1. *)
Lemma weighted_sum_range (ts cs tw cw : Q) :
  (0 <= ts)%Q → (ts <= 1)%Q → (0 <= cs)%Q → (cs <= 1)%Q →
  (0 <= tw)%Q → (0 <= cw)%Q → (tw + cw <= 1)%Q →
  (0 <= fadd (fmul ts tw) (fmul cs cw))%Q ∧ (fadd (fmul ts tw) (fmul cs cw) <= 1)%Q.
Proof.
  intros Hts0 Hts1 Hcs0 Hcs1 Htw Hcw Hsum. unfold fadd, fmul.
  assert (Hp0 : (0 <= ts * tw)%Q) by (by apply Qmult_le_0_compat).
  assert (Hq0 : (0 <= cs * cw)%Q) by (by apply Qmult_le_0_compat).
  assert (Hp1 : (ts * tw <= tw)%Q).
  { rewrite <- (Qmult_1_l tw) at 2. by apply Qmult_le_compat_r. }
  assert (Hq1 : (cs * cw <= cw)%Q).
  { rewrite <- (Qmult_1_l cw) at 2. by apply Qmult_le_compat_r. }
  assert (Htw1 : (tw <= 1)%Q) by lra. assert (Hcw1 : (cw <= 1)%Q) by lra.
  pose proof (fl_nonneg _ Hp0) as Hfp0. pose proof (fl_nonneg _ Hq0) as Hfq0.
  pose proof (fl_below_one (ts * tw) Hp0 (Qle_trans _ _ _ Hp1 Htw1)) as Hfp.
  pose proof (fl_below_one (cs * cw) Hq0 (Qle_trans _ _ _ Hq1 Hcw1)) as Hfq.
  assert (Hhalf : (pow2 (-54) + pow2 (-54) == pow2 (-53))%Q) by reflexivity.
  split.
  - apply fl_nonneg. lra.
  - rewrite <- fl_one_tie. apply fl_mono; [lra|].
    generalize dependent (pow2 (-54)). generalize (pow2 (-53)).
    generalize dependent (fl (ts * tw)). generalize dependent (fl (cs * cw)).
    generalize dependent (ts * tw)%Q. generalize dependent (cs * cw)%Q.
    intros. lra.
Qed.

Lemma size_inter_le_union (X Y : gset string) : size (X ∩ Y) <= size (X ∪ Y).
Proof. apply subseteq_size. set_solver. Qed.

Lemma calculate_text_similarity_range (s1 s2 : string) :
  (0 <= calculate_text_similarity s1 s2)%Q ∧ (calculate_text_similarity s1 s2 <= 1)%Q.
Proof.
  unfold calculate_text_similarity.
  destruct (negb (nonempty (clean_text s1)) || negb (nonempty (clean_text s2)));
    [done|].
  destruct (bool_decide (word_set (clean_text s1) = ∅)
            || bool_decide (word_set (clean_text s2) = ∅)); [done|].
  destruct (Z.eqb_spec
              (Z.of_nat (size (word_set (clean_text s1) ∪ word_set (clean_text s2)))) 0)
    as [|Hne]; [done|].
  apply int_div_range; [apply size_inter_le_union | lia].
Qed.

Lemma text_similarity_range (v1 v2 : pyval) (q : Q) :
  text_similarity v1 v2 = inr q → (0 <= q)%Q ∧ (q <= 1)%Q.
Proof.
  destruct v1, v2; simpl; try discriminate. intros [= <-].
  apply calculate_text_similarity_range.
Qed.

(** What the loop of the exact-match strategy reports is a candidate that
    matches. *)
Lemma exact_match_loop_sound (a : gmap string pyval) (t u : string)
    (candidates : list (gmap string pyval)) (cid : pyval) :
  field a "title" = PStr t → field a "url" = PStr u →
  exact_match_loop (lower (strip t)) (lower (strip u)) candidates = inr (true, cid) →
  ∃ c, c ∈ candidates ∧ c !! "id" = Some cid ∧ (same_title a c ∨ same_url a c).
Proof.
  intros Ht Hu. induction candidates as [|c cs IH]; cbn [exact_match_loop]; [discriminate|].
  intros Hloop.
  assert (Hrest : exact_match_loop (lower (strip t)) (lower (strip u)) cs = inr (true, cid) →
                  ∃ c0, c0 ∈ c :: cs ∧ c0 !! "id" = Some cid ∧ (same_title a c0 ∨ same_url a c0)).
  { intros H. destruct (IH H) as (c0 & Hin & Hrest). exists c0. split; [by constructor|done]. }
  unfold dict_get, dict_item in Hloop.
  destruct (nonempty (lower (strip t))) eqn:Ent;
    destruct (nonempty (lower (strip u))) eqn:Enu;
    destruct (c !! "title") as [[ | | | |ct| | ]|] eqn:Ect;
    destruct (c !! "url") as [[ | | | |cu| | ]|] eqn:Ecu;
    destruct (c !! "id") as [cid'|] eqn:Eid;
    cbn [andb truthy bind ret strip_lower negb] in Hloop;
    repeat match type of Hloop with
      | context [if ?b then _ else _] =>
          let E := fresh "E" in destruct b eqn:E; cbn [andb bind ret strip_lower negb] in Hloop
      end;
    try discriminate; try (by apply Hrest);
    injection Hloop as <-; exists c; (split; [by constructor|]); (split; [done|]);
    repeat match goal with
      | H : String.eqb _ _ = true |- _ => apply String.eqb_eq in H
      | H : nonempty _ = true |- _ => apply nonempty_true in H
      end;
    first [ left; exists t, ct; done | right; exists u, cu; done ].
Qed.

Lemma Qltb_spec_lt (x y : Q) : Qltb x y = true → (x < y)%Q.
Proof.
  unfold Qltb. intros H. apply negb_true_iff in H. apply Qnot_le_lt.
  intros Hle. apply Qle_bool_iff in Hle. congruence.
Qed.

Lemma Qltb_spec_ge (x y : Q) : Qltb x y = false → (y <= x)%Q.
Proof. unfold Qltb. intros H. apply negb_false_iff in H. by apply Qle_bool_iff. Qed.

(** The loop of the fuzzy strategy, started with a best similarity that no
    candidate owns yet, ends with one of two outcomes: nothing was chosen,
    or a candidate was chosen whose similarity is above the threshold and
    at least that of every candidate looked at. *)
Lemma fuzzy_match_loop_best (self : DuplicateDetector) (a : gmap string pyval)
    (candidates : list (gmap string pyval)) :
  ∀ (seen : list (gmap string pyval)) (best_similarity : Q) (best_id : pyval)
    (final_similarity : Q) (final_id : pyval),
    (best_id ≠ PNone →
     ∃ c, c ∈ seen ∧ c !! "id" = Some best_id
          ∧ similarity_to self a c = inr best_similarity
          ∧ (similarity_threshold self < best_similarity)%Q) →
    (∀ c q, c ∈ seen → has_text c = true → similarity_to self a c = inr q →
            (q <= similarity_threshold self)%Q ∨ (q <= best_similarity)%Q) →
    fuzzy_match_loop self (field a "title") (field a "content")
      best_similarity best_id candidates = inr (final_similarity, final_id) →
    (final_id ≠ PNone →
     ∃ c, c ∈ seen ++ candidates ∧ c !! "id" = Some final_id
          ∧ similarity_to self a c = inr final_similarity
          ∧ (similarity_threshold self < final_similarity)%Q)
    ∧ (∀ c q, c ∈ seen ++ candidates → has_text c = true →
              similarity_to self a c = inr q →
              (q <= similarity_threshold self)%Q ∨ (q <= final_similarity)%Q).
Proof.
  induction candidates as [|c cs IH];
    intros seen best_similarity best_id final_similarity final_id Hbest Hseen;
    cbn [fuzzy_match_loop].
  - cbn [ret]. intros [= <- <-]. rewrite app_nil_r. done.
  - fold (field c "title") (field c "content").
    replace (seen ++ c :: cs) with ((seen ++ [c]) ++ cs) by (by rewrite <- app_assoc).
    destruct (negb (truthy (field c "title")) && negb (truthy (field c "content")))
      eqn:Eskip.
    + (* the candidate has no text *)
      apply IH.
      * intros Hid. destruct (Hbest Hid) as (c0 & Hin & Hrest).
        exists c0. split; [apply elem_of_app; by left | done].
      * intros c0 q Hin Htext Hq. apply elem_of_app in Hin as [Hin|Hin]; [by eapply Hseen|].
        apply list_elem_of_singleton in Hin as ->. unfold has_text in Htext.
        apply andb_true_iff in Eskip as [H1 H2].
        apply negb_true_iff in H1, H2. rewrite H1, H2 in Htext. discriminate.
    + fold (similarity_to self a c).
      destruct (similarity_to self a c) as [e|q] eqn:Eq; cbn [bind ret]; [discriminate|].
      destruct (Qltb (similarity_threshold self) q && Qltb best_similarity q) eqn:Ebetter.
      * (* the candidate becomes the best one *)
        apply andb_true_iff in Ebetter as [Hthr Hgt].
        apply Qltb_spec_lt in Hthr, Hgt.
        unfold dict_item. destruct (c !! "id") as [cid|] eqn:Eid; cbn [bind ret];
          [|discriminate].
        apply IH.
        -- intros _. exists c. split; [apply elem_of_app; right; by constructor|done].
        -- intros c0 q0 Hin Htext Hq0. apply elem_of_app in Hin as [Hin|Hin].
           ++ destruct (Hseen c0 q0 Hin Htext Hq0) as [Hle|Hle]; [by left|].
              right. eapply Qle_trans; [exact Hle|]. by apply Qlt_le_weak.
           ++ apply list_elem_of_singleton in Hin as ->. rewrite Eq in Hq0.
              injection Hq0 as <-. right. apply Qle_refl.
      * (* the best one stays *)
        apply IH.
        -- intros Hid. destruct (Hbest Hid) as (c0 & Hin & Hrest).
           exists c0. split; [apply elem_of_app; by left | done].
        -- intros c0 q0 Hin Htext Hq0. apply elem_of_app in Hin as [Hin|Hin];
             [by eapply Hseen|].
           apply list_elem_of_singleton in Hin as ->. rewrite Eq in Hq0.
           injection Hq0 as <-.
           apply andb_false_iff in Ebetter as [Hthr|Hgt].
           ++ left. by apply Qltb_spec_ge.
           ++ right. by apply Qltb_spec_ge.
Qed.

Lemma text_chars_roundtrip (l : list ascii) : chars (text l) = l.
Proof. apply list_ascii_of_string_of_list_ascii. Qed.




End DedupMore.

(** X10.  The Jaccard similarity of two texts lies between 0 and 1, and so
    does the weighted similarity of two articles when the two weights are
    not negative and add up to at most 1. *)
Theorem similarity_in_unit_interval (self : Dedup.DuplicateDetector)
    (text1 text2 : string) (title1 content1 title2 content2 : pyval) (q : Q) :
  ((0 <= Dedup.calculate_text_similarity text1 text2)%Q
   ∧ (Dedup.calculate_text_similarity text1 text2 <= 1)%Q)
  ∧ ((0 <= Dedup.title_weight self)%Q → (0 <= Dedup.content_weight self)%Q →
     (Dedup.title_weight self + Dedup.content_weight self <= 1)%Q →
     Dedup.calculate_similarity self title1 content1 title2 content2 = inr q →
     (0 <= q)%Q ∧ (q <= 1)%Q).
Proof.
  split; [apply calculate_text_similarity_range|].
  intros Htw Hcw Hsum. unfold Dedup.calculate_similarity.
  destruct (truthy title1), (truthy title2), (truthy content1), (truthy content2);
    cbn [andb bind ret];
    repeat match goal with
      | |- context [Dedup.text_similarity ?x ?y] =>
          let E := fresh "E" in
          destruct (Dedup.text_similarity x y) as [?|?] eqn:E; cbn [bind ret];
          [discriminate|]; apply text_similarity_range in E
      end;
    intros [= <-]; try done; try (split; [done | by compute]).
  destruct E as [E1 E2], E0 as [E3 E4].
  by apply weighted_sum_range.
Qed.

Lemma similarity_in_unit_interval_witness :
  ((0 <= Dedup.calculate_text_similarity "storm over the harbour" "harbour closed")%Q
   ∧ (Dedup.calculate_text_similarity "storm over the harbour" "harbour closed" <= 1)%Q)
  ∧ ((0 <= 1)%Q ∧ (1 <= 1)%Q).
Proof.
  destruct (similarity_in_unit_interval Dedup.default_detector
              "storm over the harbour" "harbour closed"
              (PStr "storm") (PStr "rain") (PStr "storm") (PStr "rain") 1)
    as [Htext Harticle].
  split; [exact Htext|]. apply Harticle.
  - vm_compute. discriminate.
  - vm_compute. discriminate.
  - vm_compute. discriminate.
  - vm_compute. reflexivity.
Defined.

(** X11.  The Jaccard similarity does not depend on the order of the two
    texts, and a text with at least one cleaned word is at similarity 1 from
    itself. *)
Theorem similarity_symmetric (text1 text2 : string) :
  Dedup.calculate_text_similarity text1 text2 = Dedup.calculate_text_similarity text2 text1
  ∧ (Dedup.word_set (Dedup.clean_text text1) ≠ ∅ →
     (Dedup.calculate_text_similarity text1 text1 == 1)%Q).
Proof.
  split.
  - unfold Dedup.calculate_text_similarity.
    rewrite (orb_comm (negb (Dedup.nonempty (Dedup.clean_text text1)))).
    rewrite (orb_comm (bool_decide (Dedup.word_set (Dedup.clean_text text1) = ∅))).
    generalize (Dedup.word_set (Dedup.clean_text text1)).
    generalize (Dedup.word_set (Dedup.clean_text text2)). intros X Y.
    assert (Y ∩ X = X ∩ Y) as -> by set_solver.
    assert (Y ∪ X = X ∪ Y) as -> by set_solver. done.
  - intros Hwords. unfold Dedup.calculate_text_similarity.
    destruct (Dedup.nonempty (Dedup.clean_text text1)) eqn:Ene.
    + cbn [negb orb].
      rewrite bool_decide_eq_false_2 by done. cbn [orb].
      revert Hwords. generalize (Dedup.word_set (Dedup.clean_text text1)). intros X HX.
      assert (X ∩ X = X) as -> by set_solver.
      assert (X ∪ X = X) as -> by set_solver.
      assert (Hsize : size X ≠ 0) by (intros H; by apply size_empty_inv, leibniz_equiv in H).
      destruct (Z.eqb_spec (Z.of_nat (size X)) 0); [lia|].
      unfold int_div. rewrite (fl_comp _ 1), fl_one; [reflexivity|].
      apply Qmult_inv_r. unfold Qeq. simpl. lia.
    + exfalso. apply Hwords. unfold Dedup.nonempty in Ene.
      apply negb_false_iff, String.eqb_eq in Ene. rewrite Ene. reflexivity.
Qed.

Lemma similarity_symmetric_witness :
  Dedup.calculate_text_similarity "storm warning" "warning lifted"
  = Dedup.calculate_text_similarity "warning lifted" "storm warning"
  ∧ (Dedup.calculate_text_similarity "storm warning" "storm warning" == 1)%Q.
Proof.
  destruct (similarity_symmetric "storm warning" "warning lifted") as [Hsym Hself].
  split; [exact Hsym|]. apply Hself.
  intros Hempty.
  assert (Hin : "storm" ∈ Dedup.word_set (Dedup.clean_text "storm warning")).
  { apply (@bool_decide_unpack _ (elem_of_dec_slow _ _)). vm_compute. exact I. }
  rewrite Hempty in Hin. by apply not_elem_of_empty in Hin.
Defined.

(** X12.  The exact-match strategy reports only real matches: the reported
    identifier is that of a candidate whose title, or whose URL, equals the
    article's after stripping and lowercasing, and is not empty. *)
Theorem exact_match_sound (a : gmap string pyval)
    (candidates : list (gmap string pyval)) (cid : pyval) :
  Dedup.check_exact_match a candidates = inr (true, cid) →
  ∃ c, c ∈ candidates ∧ c !! "id" = Some cid ∧ (same_title a c ∨ same_url a c).
Proof.
  unfold Dedup.check_exact_match. fold (field a "title") (field a "url").
  destruct (field a "title") as [ | | | |t| | ] eqn:Et; cbn [Dedup.strip_lower bind ret];
    try discriminate.
  destruct (field a "url") as [ | | | |u| | ] eqn:Eu; cbn [Dedup.strip_lower bind ret];
    try discriminate.
  destruct (negb (Dedup.nonempty (lower (strip t))) && negb (Dedup.nonempty (lower (strip u))));
    [discriminate|].
  by apply exact_match_loop_sound.
Qed.

Lemma exact_match_sound_witness :
  ∃ c, c ∈ [headline_candidate] ∧ c !! "id" = Some (PInt 7)
       ∧ (same_title headline_article c ∨ same_url headline_article c).
Proof.
  apply (exact_match_sound headline_article [headline_candidate] (PInt 7)).
  vm_compute. reflexivity.
Defined.

(** X13.  The fuzzy strategy reports only a candidate whose similarity to
    the article is above the threshold, and no candidate with a title or a
    content is more similar to the article than the one reported. *)
Theorem fuzzy_match_sound (self : Dedup.DuplicateDetector) (a : gmap string pyval)
    (candidates : list (gmap string pyval)) (cid : pyval) :
  Dedup.check_fuzzy_match self a candidates = inr (true, cid) →
  ∃ c q, c ∈ candidates ∧ c !! "id" = Some cid
         ∧ similarity_to self a c = inr q
         ∧ (Dedup.similarity_threshold self < q)%Q
         ∧ ∀ c' q', c' ∈ candidates → has_text c' = true →
                    similarity_to self a c' = inr q' → (q' <= q)%Q.
Proof.
  unfold Dedup.check_fuzzy_match. fold (field a "title") (field a "content").
  destruct (negb (truthy (field a "title")) && negb (truthy (field a "content")));
    [discriminate|].
  destruct (Dedup.fuzzy_match_loop self (field a "title") (field a "content") 0 PNone
              candidates) as [e|[final_similarity final_id]] eqn:Eloop;
    cbn [bind ret snd]; [discriminate|].
  destruct (truthy final_id) eqn:Eid; [|discriminate]. intros [= <-].
  destruct (fuzzy_match_loop_best self a candidates [] 0 PNone final_similarity final_id)
    as [Hchosen Hbest]; [done | | exact Eloop |].
  { intros c q Hin. by apply elem_of_nil in Hin. }
  destruct Hchosen as (c & Hin & Hcid & Hq & Hthr); [by intros ->|].
  exists c, final_similarity. repeat split; try done.
  intros c' q' Hin' Htext Hq'.
  destruct (Hbest c' q' Hin' Htext Hq') as [Hle|Hle]; [|done].
  eapply Qle_trans; [exact Hle|]. by apply Qlt_le_weak.
Qed.

Lemma fuzzy_match_sound_witness :
  ∃ c q, c ∈ [budget_candidate; storm_candidate] ∧ c !! "id" = Some (PInt 20)
         ∧ similarity_to Dedup.default_detector storm_article c = inr q
         ∧ (Dedup.similarity_threshold Dedup.default_detector < q)%Q
         ∧ ∀ c' q', c' ∈ [budget_candidate; storm_candidate] → has_text c' = true →
                    similarity_to Dedup.default_detector storm_article c' = inr q' →
                    (q' <= q)%Q.
Proof.
  apply (fuzzy_match_sound Dedup.default_detector storm_article
           [budget_candidate; storm_candidate] (PInt 20)).
  vm_compute. reflexivity.
Defined.


(** ** Text utilities: truncation, n-grams, sentences, keywords *)

Section TextFacts.

Lemma length_text (l : list ascii) : String.length (text l) = length l.
Proof. unfold text. induction l as [|c l IH]; simpl; [done | by rewrite IH]. Qed.

Lemma length_chars (s : string) : length (chars s) = String.length s.
Proof. unfold chars. induction s as [|c s IH]; simpl; [done | by rewrite IH]. Qed.

Lemma length_string_app (s1 s2 : string) :
  String.length (s1 ++ s2) = String.length s1 + String.length s2.
Proof. induction s1 as [|c s1 IH]; simpl; [done | by rewrite IH]. Qed.

Lemma text_nil_inv (l : list ascii) : text l = "" → l = [].
Proof. by destruct l. Qed.

(** *** White space at the two ends *)

Lemma lstrip_fixed (c : ascii) (l : list ascii) :
  isspace c = false → lstrip_chars (c :: l) = c :: l.
Proof. intros H. simpl. by rewrite H. Qed.

Lemma lstrip_head (l : list ascii) :
  lstrip_chars l = [] ∨ ∃ c l', lstrip_chars l = c :: l' ∧ isspace c = false.
Proof.
  induction l as [|c l IH]; simpl; [by left|].
  destruct (isspace c) eqn:E; [done|]. right. eauto.
Qed.

Lemma lstrip_idemp (l : list ascii) : lstrip_chars (lstrip_chars l) = lstrip_chars l.
Proof.
  destruct (lstrip_head l) as [->|(c & l' & -> & Hc)]; [done|]. by apply lstrip_fixed.
Qed.

Lemma lstrip_snoc (l : list ascii) (c : ascii) :
  isspace c = false → lstrip_chars (l ++ [c]) = lstrip_chars l ++ [c].
Proof.
  intros Hc. induction l as [|x l IH]; simpl; [by rewrite Hc|].
  destruct (isspace x); [exact IH | done].
Qed.

(** Stripping a stripped text changes nothing. *)
Lemma strip_idemp (s : string) : strip (strip s) = strip s.
Proof.
  unfold strip. rewrite text_chars_roundtrip. f_equal.
  destruct (lstrip_head (chars s)) as [->|(c & m & -> & Hc)]; [done|].
  assert (Hr : rev (lstrip_chars (rev (c :: m))) = c :: rev (lstrip_chars (rev m))).
  { simpl. rewrite lstrip_snoc by done. by rewrite rev_app_distr. }
  rewrite Hr, lstrip_fixed by done. rewrite <- Hr.
  by rewrite rev_involutive, lstrip_idemp.
Qed.

(** *** Words *)

Lemma split_ws_aux_words (l cur : list ascii) :
  Forall (fun c => isspace c = false) cur →
  Forall is_word (split_ws_aux cur l).
Proof.
  revert cur. induction l as [|c l IH]; intros cur Hcur; simpl.
  - destruct cur as [|x cur]; [constructor|]. constructor; [|constructor].
    split.
    + intros H. apply text_nil_inv in H. apply (f_equal (@length _)) in H.
      rewrite length_rev in H. done.
    + rewrite text_chars_roundtrip. by apply Forall_rev.
  - destruct (isspace c) eqn:Ec.
    + destruct cur as [|x cur]; [by apply IH|].
      constructor; [|by apply IH]. split.
      * intros H. apply text_nil_inv in H. apply (f_equal (@length _)) in H.
        rewrite length_rev in H. done.
      * rewrite text_chars_roundtrip. by apply Forall_rev.
    + apply IH. by constructor.
Qed.

(** [split] yields words. *)
Lemma split_ws_words (s : string) : Forall is_word (split_ws s).
Proof. by apply split_ws_aux_words. Qed.

Lemma split_ws_aux_run (w rest cur : list ascii) :
  Forall (fun c => isspace c = false) w →
  split_ws_aux cur (w ++ rest) = split_ws_aux (rev w ++ cur) rest.
Proof.
  revert cur. induction w as [|c w IH]; intros cur Hw; simpl; [done|].
  apply Forall_cons in Hw as [Hc Hw]. rewrite Hc, IH by done.
  by rewrite <- app_assoc.
Qed.

Lemma chars_join_cons (w : string) (ws : list string) :
  chars (join " " (w :: ws))
  = chars w ++ match ws with [] => [] | _ => " "%char :: chars (join " " ws) end.
Proof.
  destruct ws as [|w' ws]; simpl; [by rewrite app_nil_r|].
  rewrite chars_app. f_equal.
Qed.

(** Joining words with blanks and splitting again gives the words back. *)
Lemma split_ws_join (ws : list string) :
  Forall is_word ws → split_ws (join " " ws) = ws.
Proof.
  unfold split_ws. induction 1 as [|w ws [Hne Hw] Hws IH]; [done|].
  rewrite chars_join_cons.
  assert (Hcur : ∃ x cur, rev (chars w) ++ [] = x :: cur).
  { destruct (rev (chars w)) as [|x cur] eqn:E; [|rewrite app_nil_r; eauto].
    exfalso. apply Hne. apply (f_equal (@rev _)) in E. rewrite rev_involutive in E.
    simpl in E. rewrite <- (text_chars w), E. done. }
  destruct Hcur as (x & cur & Hcur).
  rewrite split_ws_aux_run by done. rewrite Hcur.
  assert (Htext : text (rev (x :: cur)) = w).
  { rewrite <- Hcur, app_nil_r, rev_involutive. apply text_chars. }
  destruct ws as [|w' ws'].
  - cbn [split_ws_aux]. by rewrite Htext.
  - cbn [split_ws_aux]. change (isspace " ") with true. cbn iota.
    rewrite Htext. f_equal. exact IH.
Qed.

Lemma Forall_slice {A} (P : A → Prop) (lo hi : Z) (l : list A) :
  Forall P l → Forall P (slice lo hi l).
Proof. intros H. unfold slice. by apply Forall_take, Forall_drop. Qed.

Lemma length_slice {A} (i n : Z) (l : list A) :
  (0 <= i)%Z → (0 <= n)%Z → (i + n <= Z.of_nat (length l))%Z →
  length (slice i (i + n) l) = Z.to_nat n.
Proof.
  intros Hi Hn Hle. unfold slice, norm_index.
  destruct (Z.ltb_spec i 0); [lia|]. destruct (Z.ltb_spec (i + n) 0); [lia|].
  rewrite length_firstn, length_skipn. lia.
Qed.

Lemma elem_of_range (n i : Z) : i ∈ range n ↔ (0 <= i < n)%Z.
Proof.
  unfold range. rewrite list_elem_of_In, in_map_iff. split.
  - intros (k & <- & Hk). apply in_seq in Hk. lia.
  - intros H. exists (Z.to_nat i). split; [lia|]. apply in_seq. lia.
Qed.

Lemma length_range (n : Z) : length (range n) = Z.to_nat n.
Proof. unfold range. by rewrite length_map, length_seq. Qed.

End TextFacts.

(** X15.  [truncate_text] returns a text that fits [max_length] unchanged;
    a longer one is cut to its first [max_length] characters, and with the
    ellipsis the result is [max_length + 3] characters long: three more
    than the maximum asked for. *)
Theorem truncate_text_length (s : string) (max_length : Z) (add_ellipsis : bool) :
  (0 <= max_length)%Z →
  ((len s <= max_length)%Z → TextUtils.truncate_text s max_length add_ellipsis = s)
  ∧ ((max_length < len s)%Z →
     len (TextUtils.truncate_text s max_length add_ellipsis)
     = (max_length + (if add_ellipsis then 3 else 0))%Z
     ∧ is_prefix (firstn (Z.to_nat max_length) (chars s))
         (chars (TextUtils.truncate_text s max_length add_ellipsis)) = true).
Proof.
  intros Hmax. unfold TextUtils.truncate_text, len. split.
  - intros Hfit. destruct (TextUtils.nonempty s) eqn:Es; cbn [negb].
    + by destruct (Z.leb_spec (Z.of_nat (String.length s)) max_length); [|lia].
    + unfold TextUtils.nonempty in Es. apply negb_false_iff, String.eqb_eq in Es. done.
  - intros Hlong. destruct (TextUtils.nonempty s) eqn:Es; cbn [negb].
    + destruct (Z.leb_spec (Z.of_nat (String.length s)) max_length); [lia|].
      unfold slice_to. destruct (Z.leb_spec 0 max_length); [|lia].
      assert (Hlen : length (firstn (Z.to_nat max_length) (chars s)) = Z.to_nat max_length).
      { rewrite length_firstn, length_chars. lia. }
      assert (Hpre : ∀ l l' : list ascii, is_prefix l (l ++ l') = true).
      { induction l as [|c l IH]; intros l'; simpl; [done|].
        by rewrite Ascii.eqb_refl, IH. }
      destruct add_ellipsis.
      * rewrite length_string_app, length_text, Hlen. split; [simpl; lia|].
        rewrite chars_app, text_chars_roundtrip. apply Hpre.
      * rewrite length_text, Hlen. split; [lia|].
        rewrite text_chars_roundtrip.
        specialize (Hpre (firstn (Z.to_nat max_length) (chars s)) []).
        by rewrite app_nil_r in Hpre.
    + unfold TextUtils.nonempty in Es. apply negb_false_iff, String.eqb_eq in Es.
      subst s. simpl in Hlong. lia.
Qed.

Lemma truncate_text_length_witness :
  ((len "breaking" <= 5)%Z → TextUtils.truncate_text "breaking" 5 true = "breaking")
  ∧ (len (TextUtils.truncate_text "breaking" 5 true) = (5 + 3)%Z
     ∧ is_prefix (firstn (Z.to_nat 5) (chars "breaking"))
         (chars (TextUtils.truncate_text "breaking" 5 true)) = true).
Proof.
  destruct (truncate_text_length "breaking" 5 true) as [Hfit Hcut]; [lia|].
  split; [exact Hfit|]. apply Hcut. vm_compute. reflexivity.
Defined.

(** X16.  For [n] at least 1, [get_ngrams] returns one n-gram for each
    position where [n] consecutive words start (none when the text has fewer
    than [n] words), and each n-gram splits back into exactly [n] words. *)
Theorem get_ngrams_count (s : string) (n : Z) :
  (1 <= n)%Z →
  length (TextUtils.get_ngrams s n)
  = Z.to_nat (Z.of_nat (length (split_ws s)) - n + 1)
  ∧ Forall (fun g => length (split_ws g) = Z.to_nat n) (TextUtils.get_ngrams s n).
Proof.
  intros Hn. unfold TextUtils.get_ngrams.
  destruct (TextUtils.nonempty s) eqn:Es; cbn [negb].
  - split; [by rewrite length_map, length_range|].
    apply Forall_forall. intros g Hg. apply list_elem_of_In, in_map_iff in Hg.
    destruct Hg as (i & <- & Hi). apply list_elem_of_In, elem_of_range in Hi.
    rewrite split_ws_join by (apply Forall_slice, split_ws_words).
    apply length_slice; lia.
  - unfold TextUtils.nonempty in Es. apply negb_false_iff, String.eqb_eq in Es.
    subst s. split; [|constructor]. simpl. lia.
Qed.

Lemma get_ngrams_count_witness :
  length (TextUtils.get_ngrams "the harbour reopened today" 3)
  = Z.to_nat (Z.of_nat (length (split_ws "the harbour reopened today")) - 3 + 1)
  ∧ Forall (fun g => length (split_ws g) = Z.to_nat 3)
      (TextUtils.get_ngrams "the harbour reopened today" 3).
Proof. apply (get_ngrams_count "the harbour reopened today" 3). lia. Defined.

(** X17.  Every sentence [extract_sentences] returns is non-empty and has
    no white space at either end. *)
Theorem extract_sentences_stripped (s : string) :
  Forall (fun x => x ≠ "" ∧ strip x = x) (TextUtils.extract_sentences s).
Proof.
  unfold TextUtils.extract_sentences.
  destruct (negb (TextUtils.nonempty s)); [constructor|].
  apply Forall_forall. intros x Hx. apply list_elem_of_In, in_map_iff in Hx.
  destruct Hx as (y & <- & Hy). apply filter_In in Hy as [_ Hy].
  split; [|apply strip_idemp].
  unfold TextUtils.nonempty in Hy. apply negb_true_iff in Hy. by apply String.eqb_neq.
Qed.

Section KeywordFacts.

Lemma keys_bump (w : string) (counts : list (string * Z)) :
  map fst (bump w counts)
  = if bool_decide (w ∈ map fst counts) then map fst counts else map fst counts ++ [w].
Proof.
  induction counts as [|[v n] rest IH]; simpl; [done|].
  destruct (String.eqb_spec v w) as [->|Hne]; simpl.
  - rewrite bool_decide_eq_true_2; [done | by constructor].
  - rewrite IH. destruct (bool_decide (w ∈ map fst rest)) eqn:E.
    + apply bool_decide_eq_true in E. rewrite bool_decide_eq_true_2; [done|].
      by constructor.
    + apply bool_decide_eq_false in E. rewrite bool_decide_eq_false_2; [done|].
      intros Hin. apply elem_of_cons in Hin as [->|Hin]; done.
Qed.

Lemma keys_bump_NoDup (w : string) (counts : list (string * Z)) :
  NoDup (map fst counts) → NoDup (map fst (bump w counts)).
Proof.
  intros H. rewrite keys_bump. case_bool_decide as Hin; [done|].
  apply NoDup_app. repeat split; [done| |apply NoDup_singleton].
  intros x Hx Hx'. apply list_elem_of_singleton in Hx' as ->. done.
Qed.

Lemma keys_bump_elem (w x : string) (counts : list (string * Z)) :
  x ∈ map fst (bump w counts) ↔ x = w ∨ x ∈ map fst counts.
Proof.
  rewrite keys_bump. case_bool_decide as Hin.
  - split; [by right | intros [->|H]; done].
  - rewrite elem_of_app, list_elem_of_singleton. tauto.
Qed.

Lemma count_of_bump (w x : string) (counts : list (string * Z)) :
  count_of x (bump w counts)
  = (count_of x counts + (if String.eqb w x then 1 else 0))%Z.
Proof.
  induction counts as [|[v n] rest IH]; simpl.
  - destruct (String.eqb w x); lia.
  - destruct (String.eqb_spec v w) as [->|Hvw]; simpl.
    + destruct (String.eqb w x); lia.
    + destruct (String.eqb_spec v x) as [->|Hvx]; [|exact IH].
      apply String.eqb_neq in Hvw. rewrite String.eqb_sym in Hvw. rewrite Hvw. lia.
Qed.

Lemma fold_bump (ws : list string) : ∀ counts,
  NoDup (map fst counts) →
  NoDup (map fst (fold_left (fun counts w => bump w counts) ws counts))
  ∧ (∀ x, x ∈ map fst (fold_left (fun counts w => bump w counts) ws counts)
          ↔ x ∈ ws ∨ x ∈ map fst counts)
  ∧ (∀ x, count_of x (fold_left (fun counts w => bump w counts) ws counts)
          = (count_of x counts + occurrences x ws)%Z).
Proof.
  induction ws as [|w ws IH]; intros counts Hnd; simpl.
  - split; [done|]. split.
    + intros x. split; [by right | intros [H|H]; [by apply elem_of_nil in H | done]].
    + intros x. unfold occurrences. simpl. lia.
  - destruct (IH (bump w counts) (keys_bump_NoDup w counts Hnd)) as (Hnd' & Hkeys & Hcount).
    split; [done|]. split.
    + intros x. rewrite Hkeys, keys_bump_elem, elem_of_cons. tauto.
    + intros x. rewrite Hcount, count_of_bump. unfold occurrences. simpl.
      rewrite (String.eqb_sym x w). destruct (String.eqb w x); simpl; lia.
Qed.

Lemma count_of_elem (w : string) (n : Z) (counts : list (string * Z)) :
  NoDup (map fst counts) → (w, n) ∈ counts → count_of w counts = n.
Proof.
  induction counts as [|[v m] rest IH]; intros Hnd Hin; [by apply elem_of_nil in Hin|].
  simpl in *. apply NoDup_cons in Hnd as [Hv Hnd].
  apply elem_of_cons in Hin as [[= -> ->]|Hin].
  - by rewrite String.eqb_refl.
  - destruct (String.eqb_spec v w) as [->|Hne]; [|by apply IH].
    exfalso. apply Hv. apply list_elem_of_In, in_map_iff. exists (w, n).
    split; [done | by apply list_elem_of_In].
Qed.

(** The dictionary of counts has one entry per distinct word, holding the
    number of its occurrences. *)
Lemma count_words_spec (ws : list string) :
  NoDup (map fst (count_words ws))
  ∧ (∀ x, x ∈ map fst (count_words ws) ↔ x ∈ ws)
  ∧ (∀ x n, (x, n) ∈ count_words ws → n = occurrences x ws).
Proof.
  unfold count_words.
  destruct (fold_bump ws [] (NoDup_nil_2)) as (Hnd & Hkeys & Hcount).
  split; [done|]. split.
  - intros x. rewrite Hkeys. simpl. split; [intros [H|H]; [done|by apply elem_of_nil in H] | by left].
  - intros x n Hin. rewrite <- (count_of_elem x n _ Hnd Hin), Hcount. simpl. lia.
Qed.

Lemma descending_take {A} (key : A → Q) (n : nat) (l : list A) :
  descending key l → descending key (firstn n l).
Proof.
  intros H. revert n. induction H as [|x xs Hxs IH Hx]; intros n.
  - rewrite firstn_nil. constructor.
  - destruct n; simpl; [constructor|]. constructor; [apply IH|].
    apply Forall_forall. intros y Hy. rewrite Forall_forall in Hx. apply Hx.
    by apply (subseteq_take n xs).
Qed.

Lemma descending_map {A B} (f : A → B) (key : A → Q) (key' : B → Q) (l : list A) :
  (∀ x, x ∈ l → key' (f x) = key x) → descending key l → descending key' (map f l).
Proof.
  intros Hkey H. induction H as [|x xs Hxs IH Hx]; simpl; [constructor|].
  constructor.
  - apply IH. intros y Hy. apply Hkey. by constructor.
  - apply Forall_forall. intros y Hy. apply list_elem_of_In, in_map_iff in Hy.
    destruct Hy as (z & <- & Hz). apply list_elem_of_In in Hz.
    rewrite (Hkey z) by (by constructor). rewrite (Hkey x) by constructor.
    rewrite Forall_forall in Hx. by apply Hx.
Qed.

End KeywordFacts.

(** X18.  The keywords [extract_keywords] returns are distinct words of the
    lowercased text rid of special characters, each at least
    [min_word_length] characters long, and there are at most [max_keywords]
    of them. *)
Theorem extract_keywords_distinct (s : string) (max_keywords min_word_length : Z) :
  NoDup (TextUtils.extract_keywords s max_keywords min_word_length)
  ∧ (∀ k, k ∈ TextUtils.extract_keywords s max_keywords min_word_length →
          k ∈ split_ws (TextUtils.remove_special_chars (lower s))
          ∧ (min_word_length <= len k)%Z)
  ∧ ((0 <= max_keywords)%Z →
     (Z.of_nat (length (TextUtils.extract_keywords s max_keywords min_word_length))
      <= max_keywords)%Z).
Proof.
  unfold TextUtils.extract_keywords.
  destruct (negb (TextUtils.nonempty s)).
  { split; [constructor|]. split; [|simpl; lia]. intros k Hk. by apply elem_of_nil in Hk. }
  fold (counted_words s min_word_length).
  destruct (count_words_spec (counted_words s min_word_length)) as (Hnd & Hkeys & _).
  destruct (slice_to_prefix max_keywords
              (sort_desc (fun wc : string * Z => inject_Z (snd wc))
                 (count_words (counted_words s min_word_length)))) as [n Hn].
  assert (Hsub : sublist
            (map fst (slice_to max_keywords
               (sort_desc (fun wc : string * Z => inject_Z (snd wc))
                  (count_words (counted_words s min_word_length)))))
            (map fst (sort_desc (fun wc : string * Z => inject_Z (snd wc))
                        (count_words (counted_words s min_word_length))))).
  { rewrite Hn. apply (fmap_sublist fst), sublist_take. }
  assert (Hperm : map fst (sort_desc (fun wc : string * Z => inject_Z (snd wc))
                             (count_words (counted_words s min_word_length)))
                  ≡ₚ map fst (count_words (counted_words s min_word_length))).
  { apply Permutation_map, sort_desc_perm. }
  split; [|split].
  - eapply sublist_NoDup; [|exact Hsub]. by rewrite Hperm.
  - intros k Hk. eapply elem_of_sublist in Hk; [|exact Hsub].
    rewrite Hperm in Hk. apply Hkeys in Hk.
    unfold counted_words in Hk. apply list_elem_of_In, filter_In in Hk as [Hin Hlen].
    split; [by apply list_elem_of_In | lia].
  - intros Hk. rewrite length_map. unfold slice_to.
    destruct (Z.leb_spec 0 max_keywords); [|lia].
    pose proof (firstn_le_length (Z.to_nat max_keywords)
                  (sort_desc (fun wc : string * Z => inject_Z (snd wc))
                     (count_words (counted_words s min_word_length)))). lia.
Qed.

Lemma extract_keywords_distinct_witness :
  (Z.of_nat (length (TextUtils.extract_keywords weather_note 2 3)) <= 2)%Z.
Proof.
  apply (proj2 (proj2 (extract_keywords_distinct weather_note 2 3))). lia.
Defined.

(** X19.  The keywords come most frequent first, and no counted word that
    was left out occurs more often than a keyword. *)
Theorem extract_keywords_most_frequent (s : string) (max_keywords min_word_length : Z) :
  descending (fun k => inject_Z (occurrences k (counted_words s min_word_length)))
    (TextUtils.extract_keywords s max_keywords min_word_length)
  ∧ ∀ k w,
      k ∈ TextUtils.extract_keywords s max_keywords min_word_length →
      w ∈ counted_words s min_word_length →
      w ∉ TextUtils.extract_keywords s max_keywords min_word_length →
      (occurrences w (counted_words s min_word_length)
       <= occurrences k (counted_words s min_word_length))%Z.
Proof.
  unfold TextUtils.extract_keywords.
  destruct (negb (TextUtils.nonempty s)).
  { split; [constructor|]. intros k w Hk. by apply elem_of_nil in Hk. }
  fold (counted_words s min_word_length).
  set (ws := counted_words s min_word_length).
  set (key := fun wc : string * Z => inject_Z (snd wc)).
  destruct (count_words_spec ws) as (Hnd & Hkeys & Hcount).
  destruct (slice_to_prefix max_keywords (sort_desc key (count_words ws))) as [n ->].
  assert (Hsorted : ∀ p, p ∈ sort_desc key (count_words ws) → snd p = occurrences (fst p) ws).
  { intros [x m] Hp. rewrite sort_desc_perm in Hp. simpl. by apply Hcount. }
  split.
  - apply (descending_map fst key).
    + intros p Hp. unfold key. f_equal. symmetry. apply Hsorted.
      by apply (subseteq_take n (sort_desc key (count_words ws))).
    + apply descending_take, sort_desc_descending.
  - intros k w Hk Hw Hnot.
    apply list_elem_of_In, in_map_iff in Hk. destruct Hk as (pk & <- & Hpk).
    apply list_elem_of_In in Hpk.
    assert (Hpw : (w, occurrences w ws) ∈ skipn n (sort_desc key (count_words ws))).
    { assert (Hin : (w, occurrences w ws) ∈ sort_desc key (count_words ws)).
      { rewrite sort_desc_perm. apply Hkeys in Hw.
        apply list_elem_of_In, in_map_iff in Hw. destruct Hw as ([x m] & Hx & Hin).
        simpl in Hx. subst x. apply list_elem_of_In in Hin.
        by rewrite <- (Hcount w m Hin). }
      rewrite <- (firstn_skipn n (sort_desc key (count_words ws))) in Hin.
      apply elem_of_app in Hin as [Hin|Hin]; [|done].
      exfalso. apply Hnot. apply list_elem_of_In, in_map_iff.
      exists (w, occurrences w ws). split; [done | by apply list_elem_of_In]. }
    pose proof (descending_cut key _ (sort_desc_descending key (count_words ws)) n pk _
                  Hpk Hpw) as Hle.
    unfold key in Hle. simpl in Hle. rewrite <- Zle_Qle in Hle.
    rewrite (Hsorted pk) in Hle; [done|].
    by apply (subseteq_take n (sort_desc key (count_words ws))).
Qed.

Lemma extract_keywords_most_frequent_witness :
  (occurrences "rain" (counted_words weather_note 3)
   <= occurrences "wind" (counted_words weather_note 3))%Z.
Proof.
  apply (proj2 (extract_keywords_most_frequent weather_note 2 3) "wind" "rain").
  - apply (@bool_decide_unpack _ (list_elem_of_dec _ _)). vm_compute. exact I.
  - apply (@bool_decide_unpack _ (list_elem_of_dec _ _)). vm_compute. exact I.
  - apply (@bool_decide_unpack _ (not_dec (list_elem_of_dec _ _))). vm_compute. exact I.
Defined.

Lemma fold_union_singleton {A} (f : A → string) (l : list A) : ∀ S0 : gset string,
  fold_left (fun shingles i => shingles ∪ {[ f i ]}) l S0 = S0 ∪ list_to_set (map f l).
Proof.
  induction l as [|x l IH]; intros S0; simpl.
  - set_solver.
  - rewrite IH. set_solver.
Qed.

(** X20.  The shingles of a text are its n-grams as a set. *)
Theorem shingles_are_ngrams (s : string) (k : Z) :
  TextUtils.get_shingles s k = list_to_set (TextUtils.get_ngrams s k).
Proof.
  unfold TextUtils.get_shingles, TextUtils.get_ngrams.
  destruct (negb (TextUtils.nonempty s)); [done|].
  rewrite fold_union_singleton. set_solver.
Qed.

(** X21.  On a text of at least [k] words (and at least one) the detector's
    [_get_shingles] and the utility [get_shingles] give the same set; on a
    text of fewer words the detector gives one shingle, the whole text with
    single blanks, and the utility gives none. *)
Theorem detector_shingles_agree (s : string) (k : Z) :
  (s ≠ "" → (k <= Z.of_nat (length (split_ws s)))%Z →
   Dedup.get_shingles s k = TextUtils.get_shingles s k)
  ∧ ((Z.of_nat (length (split_ws s)) < k)%Z →
     Dedup.get_shingles s k = {[ join " " (split_ws s) ]}
     ∧ TextUtils.get_shingles s k = ∅).
Proof.
  split.
  - intros Hs Hk. unfold Dedup.get_shingles, TextUtils.get_shingles.
    destruct (Z.ltb_spec (Z.of_nat (length (split_ws s))) k); [lia|].
    destruct s; [done|]. cbn [TextUtils.nonempty String.eqb negb].
    rewrite fold_union_singleton. set_solver.
  - intros Hk. split.
    + unfold Dedup.get_shingles.
      destruct (Z.ltb_spec (Z.of_nat (length (split_ws s))) k); [done|lia].
    + unfold TextUtils.get_shingles.
      destruct (negb (TextUtils.nonempty s)); [done|].
      replace (range (Z.of_nat (length (split_ws s)) - k + 1)) with (@nil Z); [done|].
      unfold range. replace (Z.to_nat _) with 0%nat by lia. reflexivity.
Qed.

Lemma detector_shingles_agree_witness :
  Dedup.get_shingles "storm closes the harbour" 3 = TextUtils.get_shingles "storm closes the harbour" 3
  ∧ Dedup.get_shingles "storm closes" 3 = {[ "storm closes" ]}
  ∧ TextUtils.get_shingles "storm closes" 3 = ∅.
Proof.
  split.
  - apply (proj1 (detector_shingles_agree "storm closes the harbour" 3)); [done | vm_compute; discriminate].
  - apply (proj2 (detector_shingles_agree "storm closes" 3)). vm_compute. reflexivity.
Defined.

(** X22.  The detector's text similarity is the utility's Jaccard similarity
    of the two cleaned texts: its extra test for an empty word set changes
    no result. *)
Theorem detector_similarity_is_jaccard (text1 text2 : string) :
  (Dedup.calculate_text_similarity text1 text2
   == TextUtils.calculate_text_similarity (Dedup.clean_text text1) (Dedup.clean_text text2))%Q.
Proof.
  unfold Dedup.calculate_text_similarity, TextUtils.calculate_text_similarity, Dedup.word_set.
  replace (Dedup.nonempty (Dedup.clean_text text1))
    with (TextUtils.nonempty (Dedup.clean_text text1)) by reflexivity.
  replace (Dedup.nonempty (Dedup.clean_text text2))
    with (TextUtils.nonempty (Dedup.clean_text text2)) by reflexivity.
  generalize (list_to_set (split_ws (Dedup.clean_text text1)) : gset string).
  generalize (list_to_set (split_ws (Dedup.clean_text text2)) : gset string).
  intros Y X.
  destruct (negb (TextUtils.nonempty (Dedup.clean_text text1))
            || negb (TextUtils.nonempty (Dedup.clean_text text2))); [reflexivity|].
  destruct (bool_decide (X = ∅) || bool_decide (Y = ∅)) eqn:E; [|reflexivity].
  destruct (Z.eqb_spec (Z.of_nat (size (X ∪ Y))) 0); [reflexivity|].
  assert (X ∩ Y = ∅) as ->.
  { apply orb_true_iff in E as [E|E]; apply bool_decide_eq_true in E; set_solver. }
  rewrite size_empty. unfold int_div. rewrite fl_zero; [reflexivity|].
  change (inject_Z (Z.of_nat 0)) with 0%Q. unfold Qdiv. apply Qmult_0_l.
Qed.

(** ** More on the classifier *)

Section ClassifierFacts.
Import Classifier.
Variable strategies : Strategies.

Lemma categories_value_truthy (cats : list string) :
  cats ≠ [] → truthy (categories_value cats) = true.
Proof. destruct cats; [done|reflexivity]. Qed.

(** The three shapes of what [process] returns. *)
Lemma process_shape (self : Classifier) (a : gmap string pyval) :
  (process strategies self a = a
   ∧ (enabled self = false ∨ truthy (dict_get a "categories") = true))
  ∨ ∃ cats, cats ≠ []
      ∧ (process strategies self a = <["categories" := categories_value cats]> a
         ∨ ∃ md, process strategies self a
                 = <["metadata" := md]> (<["categories" := categories_value cats]> a)).
Proof.
  assert (Hdefault : ∃ cats, cats ≠ []
      ∧ (set_default_category self a = <["categories" := categories_value cats]> a
         ∨ ∃ md, set_default_category self a
                 = <["metadata" := md]> (<["categories" := categories_value cats]> a))).
  { exists [default_category self]. split; [done|]. by left. }
  unfold process, process_try.
  destruct (enabled self) eqn:He; cbn [negb]; cbv beta iota delta [ret raise];
    [|left; split; [done|by left]].
  destruct (truthy (dict_get a "categories") && negb (override_existing self)) eqn:Hc.
  { left. split; [done|]. right. by apply andb_true_iff in Hc as [? _]. }
  destruct (negb (truthy (dict_get a "content")) && negb (truthy (dict_get a "title")));
    [by right|].
  destruct (if truthy (dict_get a "content")
            then bind (py_len (dict_get a "content"))
                   (fun n => inr (n <? min_content_length self)%Z)
            else inr false) as [e|too_short]; [by right|].
  destruct (too_short && negb (truthy (dict_get a "title"))); [by right|].
  destruct (classify_article strategies self a) as [e|[categories confidence]]; [by right|].
  destruct categories as [|c cs]; [by right|].
  cbv beta iota zeta.
  destruct (<["categories" := categories_value (c :: cs)]> a !! "metadata") as [m|] eqn:Hm.
  - rewrite Hm.
    destruct m;
      try (right; exists [default_category self]; split; [done|]; left;
           unfold set_default_category; apply insert_insert_eq).
    right. exists (c :: cs). split; [done|]. right. eexists. reflexivity.
  - rewrite lookup_insert_eq. right. exists (c :: cs). split; [done|]. right.
    eexists. apply insert_insert_eq.
Qed.

End ClassifierFacts.

(** X23.  A disabled classifier returns the article as it is; an enabled
    one returns it with a non-empty value under "categories", whatever the
    strategies do. *)
Theorem process_sets_categories (strategies : Classifier.Strategies)
    (self : Classifier.Classifier) (a : gmap string pyval) :
  (Classifier.enabled self = false → Classifier.process strategies self a = a)
  ∧ (Classifier.enabled self = true →
     truthy (dict_get (Classifier.process strategies self a) "categories") = true).
Proof.
  split.
  - intros Hoff. unfold Classifier.process, Classifier.process_try. by rewrite Hoff.
  - intros Hon.
    destruct (process_shape strategies self a) as [[-> [Hoff|Hcats]]|(cats & Hne & [->| [md ->]])].
    + congruence.
    + done.
    + unfold dict_get. rewrite lookup_insert_eq. by apply categories_value_truthy.
    + unfold dict_get. rewrite lookup_insert_ne by done. rewrite lookup_insert_eq.
      by apply categories_value_truthy.
Qed.

Lemma process_sets_categories_witness :
  truthy (dict_get (Classifier.process sport_keywords Classifier.default_classifier match_report)
            "categories") = true.
Proof.
  apply (proj2 (process_sets_categories sport_keywords Classifier.default_classifier
                  match_report)).
  reflexivity.
Defined.

(** X24.  [process] writes under the keys "categories" and "metadata" only:
    every other entry of the article is as it was. *)
Theorem process_keeps_other_keys (strategies : Classifier.Strategies)
    (self : Classifier.Classifier) (a : gmap string pyval) (k : string) :
  k ≠ "categories" → k ≠ "metadata" →
  Classifier.process strategies self a !! k = a !! k.
Proof.
  intros Hc Hm.
  destruct (process_shape strategies self a) as [[-> _]|(cats & _ & [->| [md ->]])].
  - done.
  - by rewrite lookup_insert_ne.
  - by rewrite !lookup_insert_ne.
Qed.

Lemma process_keeps_other_keys_witness :
  Classifier.process sport_keywords Classifier.default_classifier match_report !! "title"
  = match_report !! "title".
Proof.
  apply (process_keeps_other_keys sport_keywords Classifier.default_classifier match_report
           "title"); discriminate.
Defined.

(** X25.  What [_classify_article] returns is either the default category
    alone, or categories that are not empty with a confidence of at least
    [min_confidence]. *)
Theorem classify_article_confident (strategies : Classifier.Strategies)
    (self : Classifier.Classifier) (a : gmap string pyval)
    (categories : list string) (confidence : Q) :
  Classifier.classify_article strategies self a = inr (categories, confidence) →
  categories = [Classifier.default_category self]
  ∨ (categories ≠ [] ∧ (Classifier.min_confidence self <= confidence)%Q).
Proof.
  unfold Classifier.classify_article, bind.
  destruct (Classifier.prepare_text strategies a) as [e|text]; [discriminate|].
  destruct (Classifier.classify_with_keywords strategies text a) as [e|keyword]; [discriminate|].
  set (results := match (if Classifier.use_neural self then _ else _) with
                  | Some _ => _ | None => _ end).
  assert (Hall : Forall (fun r : list string * Q => fst r ≠ []) results).
  { assert (Hone : ∀ r, Forall (fun r : list string * Q => fst r ≠ [])
                          (Classifier.nonempty_result r)).
    { intros [cats conf]. unfold Classifier.nonempty_result. simpl.
      destruct cats; [constructor|]. by repeat constructor. }
    subst results.
    destruct (if Classifier.use_neural self then _ else _);
      destruct (if Classifier.use_tfidf self then _ else _);
      repeat apply Forall_app_2; auto. }
  rewrite <- (sort_desc_perm snd results) in Hall.
  destruct (sort_desc snd results) as [|[top_categories top_confidence] rest].
  - intros [= <- <-]. by left.
  - apply Forall_cons in Hall as [Htop _]. simpl in Htop.
    destruct (Qltb top_confidence (Classifier.min_confidence self)) eqn:Hlow.
    + intros [= <- <-]. by left.
    + intros [= <- <-]. right. split; [done|]. by apply Qltb_false_le.
Qed.

Lemma classify_article_confident_witness :
  ["sports"%string] = [Classifier.default_category Classifier.default_classifier]
  ∨ (["sports"%string] ≠ []
     ∧ (Classifier.min_confidence Classifier.default_classifier <= 7 # 10)%Q).
Proof.
  apply (classify_article_confident sport_keywords Classifier.default_classifier match_report).
  reflexivity.
Defined.

(** ** More on the category distribution *)

Lemma occurrences_pos (x : string) (ws : list string) :
  x ∈ ws → (1 <= occurrences x ws)%Z.
Proof.
  intros Hin. unfold occurrences.
  assert (Hx : In x (List.filter (String.eqb x) ws)).
  { apply filter_In. split; [by apply list_elem_of_In | apply String.eqb_refl]. }
  destruct (List.filter (String.eqb x) ws); [done|]. simpl. lia.
Qed.

(** X26.  The entries of the category distribution come by descending
    count, carry distinct category names, and each counts at least one
    article, whatever the order in which the engine returns categories of
    equal count. *)
Theorem category_distribution_ordered
    (group_order : list (string * Z) → list (string * Z)) (db : Analytics.Database) :
  (∀ groups, group_order groups ≡ₚ groups) →
  descending (fun e => inject_Z (Analytics.count e))
    (Analytics.get_category_distribution group_order db)
  ∧ NoDup (map Analytics.category (Analytics.get_category_distribution group_order db))
  ∧ Forall (fun e => (1 <= Analytics.count e)%Z)
      (Analytics.get_category_distribution group_order db).
Proof.
  intros Hengine. unfold Analytics.get_category_distribution.
  destruct (Analytics.total_count db =? 0)%Z.
  { split; [constructor|]. split; constructor. }
  unfold Analytics.grouped.
  set (key := fun r : string * Z => inject_Z (snd r)).
  destruct (count_words_spec (Analytics.joined db)) as (Hnd & Hkeys & Hcount).
  split; [|split].
  - apply (descending_map _ key); [done|]. apply sort_desc_descending.
  - rewrite map_map. simpl.
    assert (Hperm : map fst (sort_desc key (group_order (count_words (Analytics.joined db))))
                    ≡ₚ map fst (count_words (Analytics.joined db))).
    { apply Permutation_map. by rewrite sort_desc_perm, Hengine. }
    change (NoDup (map fst (sort_desc key
                              (group_order (count_words (Analytics.joined db)))))).
    by rewrite Hperm.
  - apply Forall_map, Forall_forall. intros [name n] Hin. simpl.
    rewrite sort_desc_perm, Hengine in Hin.
    rewrite (Hcount name n Hin). apply occurrences_pos, Hkeys.
    apply list_elem_of_In, in_map_iff. exists (name, n).
    split; [done | by apply list_elem_of_In].
Qed.

Lemma category_distribution_ordered_witness :
  descending (fun e => inject_Z (Analytics.count e))
    (Analytics.get_category_distribution reverses_order two_category_db)
  ∧ NoDup (map Analytics.category
             (Analytics.get_category_distribution reverses_order two_category_db))
  ∧ Forall (fun e => (1 <= Analytics.count e)%Z)
      (Analytics.get_category_distribution reverses_order two_category_db).
Proof.
  apply (category_distribution_ordered reverses_order two_category_db).
  intros groups. unfold reverses_order. symmetry. apply Permutation_rev.
Defined.

(** ** More on the VADER verdict *)

(** X27.  Whatever the library returns or raises, the verdict of
    [_analyze_with_vader] is one of the three labels with a confidence that
    is not negative, and it is "neutral" exactly when the confidence is
    below 0.05. *)
Theorem vader_label_matches_confidence (polarity_scores : string → M (gmap string Q))
    (text : string) :
  (0 <= snd (Sentiment.analyze_with_vader polarity_scores text))%Q
  ∧ (fst (Sentiment.analyze_with_vader polarity_scores text) = "positive"
     ∨ fst (Sentiment.analyze_with_vader polarity_scores text) = "negative"
     ∨ fst (Sentiment.analyze_with_vader polarity_scores text) = "neutral")
  ∧ (fst (Sentiment.analyze_with_vader polarity_scores text) = "neutral"
     ↔ (snd (Sentiment.analyze_with_vader polarity_scores text) < 5 # 100)%Q).
Proof.
  unfold Sentiment.analyze_with_vader, bind.
  destruct (polarity_scores text) as [e|scores].
  { simpl. split; [apply Qle_refl|]. split; [by right; right|]. by split. }
  destruct (Sentiment.compound_of scores) as [e|compound].
  { simpl. split; [apply Qle_refl|]. split; [by right; right|]. by split. }
  unfold ret. cbn [fst snd].
  split; [apply Qabs_nonneg|].
  destruct (Qle_bool (5 # 100) compound) eqn:Hpos.
  { apply Qle_bool_iff in Hpos. split; [by left|]. split; [discriminate|].
    intros Hlow. exfalso. apply (Qlt_irrefl (5 # 100)).
    eapply Qle_lt_trans; [exact Hpos|]. eapply Qle_lt_trans; [apply Qle_Qabs|exact Hlow]. }
  destruct (Qle_bool compound (- (5 # 100))) eqn:Hneg.
  { apply Qle_bool_iff in Hneg. split; [by right; left|]. split; [discriminate|].
    intros Hlow. exfalso. apply (Qlt_irrefl (5 # 100)).
    apply Qopp_le_compat in Hneg. rewrite Qopp_involutive in Hneg.
    eapply Qle_lt_trans; [exact Hneg|]. rewrite <- Qabs_opp in Hlow.
    eapply Qle_lt_trans; [apply Qle_Qabs|exact Hlow]. }
  split; [by right; right|]. split; [|done]. intros _.
  apply Qabs_Qlt_condition. split.
  - apply Qnot_le_lt. intros H. apply Qle_bool_iff in H. congruence.
  - apply Qnot_le_lt. intros H. apply Qle_bool_iff in H. congruence.
Qed.

(** ** More on the scheduler *)

Lemma crawl_source_step (self : Scheduler.CrawlerScheduler) (env : Scheduler.Env)
    (source_id : string) :
  Scheduler.next_crawl_time (fst (Scheduler.crawl_source self env source_id))
  = Scheduler.next_crawl_time self
  ∧ Scheduler.source_instances (fst (Scheduler.crawl_source self env source_id))
    = Scheduler.source_instances self
  ∧ snd (Scheduler.crawl_source self env source_id)
    = inl (match Scheduler.source_instances self !! source_id with
           | Some _ => AttributeError
           | None => ValueError
           end).
Proof.
  unfold Scheduler.crawl_source.
  destruct (Scheduler.source_instances self !! source_id) as [config|].
  - unfold Scheduler.crawl_try.
    destruct (Scheduler.process_result env) as [e|articles].
    + rewrite crawl_except_raises. simpl. eauto.
    + rewrite getattr_interval, crawl_except_raises. simpl. eauto.
  - simpl. unfold raise. eauto.
Qed.

(** X28.  No call of [crawl_source] returns articles: each ends with an
    exception, [ValueError] for an unknown source and [AttributeError] for
    a known one.  And no series of calls changes a next crawl time or the
    set of sources, so a source that is due stays due. *)
Theorem crawl_source_never_reschedules (self : Scheduler.CrawlerScheduler)
    (calls : list (Scheduler.Env * string)) :
  Scheduler.next_crawl_time (crawl_all self calls) = Scheduler.next_crawl_time self
  ∧ Scheduler.source_instances (crawl_all self calls) = Scheduler.source_instances self
  ∧ ∀ env source_id,
      snd (Scheduler.crawl_source (crawl_all self calls) env source_id)
      = inl (match Scheduler.source_instances self !! source_id with
             | Some _ => AttributeError
             | None => ValueError
             end).
Proof.
  revert self. induction calls as [|[env source_id] rest IH]; intros self; simpl.
  - split; [done|]. split; [done|]. intros env source_id.
    apply (crawl_source_step self env source_id).
  - destruct (crawl_source_step self env source_id) as (Hnext & Hsrc & _).
    destruct (IH (fst (Scheduler.crawl_source self env source_id))) as (IHn & IHs & IHe).
    split; [by rewrite IHn|]. split; [by rewrite IHs|].
    intros env' source_id'. rewrite IHe, Hsrc. reflexivity.
Qed.
